(** * CosmoScan: the catalog filter engine of [CosmoScanApp.tsx]

    A shallow embedding of the filtering, sorting, aggregation, selection and
    debounce logic of the single React component of the repository, and the
    theorems that relate it to the written specification.

    Conventions of the embedding.
    - A JavaScript [number] is read in two ways.  The data model records a
      rating as the rational ([Q]) that its decimal literal denotes.  Module
      [Double] runs the arithmetic of the component on IEEE-754 doubles
      (Rocq's primitive floats), each literal being the double nearest to
      it: this is the reading that rounds, depends on the order of the
      operands and overflows, as the code does.  The definitions outside
      [Double] compute on the rationals themselves; a statement about them
      is made under hypotheses on the ratings (integers of small magnitude,
      or a sign condition) when it would not hold of the doubles otherwise.
    - A JavaScript [string] is a Rocq [string].  The built-ins [toLowerCase]
      and [trim] are modelled on the ASCII range (letters [A]-[Z], and the
      white space characters TAB, LF, VT, FF, CR and SPACE); other characters
      are left as they are, so that the models are exact on ASCII texts
      ([JS.isAscii]) and statements that depend on what the built-ins do are
      made for such texts.
    - [null] and [undefined] are [None].
    - Optional record fields ([active?], [allergenic?], [controversial?]) are
      [option]s. *)

From Stdlib Require Import List String Ascii Bool Arith ZArith QArith Lia.
From Stdlib Require Import Sorted Permutation Lqa Qround.
From Stdlib Require Floats.
Import ListNotations.

Local Open Scope string_scope.
Local Open Scope list_scope.
Local Open Scope Q_scope.

(** ** JavaScript built-ins used by the component *)

Module JS.

(** [String.prototype.toLowerCase], on the ASCII range. *)
Definition lowerChar (c : ascii) : ascii :=
  let n := nat_of_ascii c in
  if ((65 <=? n) && (n <=? 90))%nat then ascii_of_nat (n + 32) else c.

Fixpoint toLowerCase (s : string) : string :=
  match s with
  | EmptyString => EmptyString
  | String c s' => String (lowerChar c) (toLowerCase s')
  end.

(** White space and line terminators stripped by [String.prototype.trim],
    on the ASCII range. *)
Definition isWhiteSpace (c : ascii) : bool :=
  let n := nat_of_ascii c in
  ((9 <=? n) && (n <=? 13) || (n =? 32))%nat.

Fixpoint trimStart (s : string) : string :=
  match s with
  | EmptyString => EmptyString
  | String c s' => if isWhiteSpace c then trimStart s' else s
  end.

Fixpoint trimEnd (s : string) : string :=
  match s with
  | EmptyString => EmptyString
  | String c s' =>
      match trimEnd s' with
      | EmptyString => if isWhiteSpace c then EmptyString else String c EmptyString
      | r => String c r
      end
  end.

Definition trim (s : string) : string := trimEnd (trimStart s).

(** [s.includes(q)]: [q] occurs in [s] at some position. *)
Fixpoint includes (s q : string) : bool :=
  String.prefix q s ||
  match s with
  | EmptyString => false
  | String _ s' => includes s' q
  end.

(** Truthiness of a string: [!q] holds exactly for the empty string. *)
Definition falsy (q : string) : bool :=
  match q with EmptyString => true | _ => false end.

(** [Array.prototype.sort(cmp)].  The language requires the sort to be
    stable (ECMAScript 2019 and later) and leaves the algorithm to the
    engine; the model is the insertion sort driven by the sign of the
    comparator: an element moves behind a later one only when the
    comparator is strictly positive on the pair. *)
Section Sort.
Context {A : Type} (cmp : A -> A -> Q).

Fixpoint insert (x : A) (l : list A) : list A :=
  match l with
  | [] => [x]
  | y :: l' =>
      match cmp x y ?= 0 with
      | Gt => y :: insert x l'
      | _ => x :: l
      end
  end.

Fixpoint sort (l : list A) : list A :=
  match l with
  | [] => []
  | x :: l' => insert x (sort l')
  end.
End Sort.

(** [Array.prototype.find]: the first element that satisfies the
    predicate, [undefined] when there is none. *)
Definition find {A : Type} (f : A -> bool) (l : list A) : option A :=
  List.find f l.

(** [a ?? b]: [b] when [a] is [null] or [undefined]. *)
Definition nullish {A : Type} (a : option A) (b : A) : A :=
  match a with
  | Some v => v
  | None => b
  end.

(** [new Set(l)] followed by [Array.from]: the distinct elements in the
    order of their first occurrence. *)
Definition Set_from (l : list string) : list string :=
  fold_left
    (fun acc x => if existsb (String.eqb x) acc then acc else acc ++ [x])
    l [].

(** What a property read [obj[key]] gives on an object literal whose own
    properties hold strings: the own string, or a member the literal
    inherits from [Object.prototype] (a function, or the prototype object
    itself for [__proto__]), which is not a string. *)
Inductive value :=
| VString (s : string)
| VInherited (key : string).

Definition Object_prototype : list string :=
  [ "constructor"; "hasOwnProperty"; "isPrototypeOf";
    "propertyIsEnumerable"; "toLocaleString"; "toString"; "valueOf";
    "__proto__"; "__defineGetter__"; "__defineSetter__";
    "__lookupGetter__"; "__lookupSetter__" ].

Fixpoint own (obj : list (string * string)) (key : string) : option string :=
  match obj with
  | [] => None
  | (k, v) :: obj' => if String.eqb k key then Some v else own obj' key
  end.

(** [obj[key]]: own properties first, then the prototype chain;
    [undefined] when neither has the key. *)
Definition get (obj : list (string * string)) (key : string) : option value :=
  match own obj key with
  | Some v => Some (VString v)
  | None =>
      if existsb (String.eqb key) Object_prototype
      then Some (VInherited key)
      else None
  end.

(** [String.prototype.toUpperCase], on the ASCII range. *)
Definition upperChar (c : ascii) : ascii :=
  let n := nat_of_ascii c in
  if ((97 <=? n) && (n <=? 122))%nat then ascii_of_nat (n - 32) else c.

Fixpoint toUpperCase (s : string) : string :=
  match s with
  | EmptyString => EmptyString
  | String c s' => String (upperChar c) (toUpperCase s')
  end.

(** [s.charAt(i)]: the character at index [i] as a string, the empty string
    when [i] is out of range. *)
Definition charAt (i : nat) (s : string) : string :=
  match String.get i s with
  | Some c => String c EmptyString
  | None => EmptyString
  end.

(** [s.slice(start)] for [start >= 0]: what follows the first [start]
    characters, the empty string when there are not as many. *)
Fixpoint slice (start : nat) (s : string) : string :=
  match start, s with
  | O, _ => s
  | S _, EmptyString => EmptyString
  | S n, String _ s' => slice n s'
  end.

(** [Math.round]: the closest integer, the larger one on a tie. *)
Definition Math_round (x : Q) : Z := Qfloor (x + (1 # 2)).

(** The strings on which the models of the case conversions are exact:
    every character is in the ASCII range. *)
Fixpoint isAscii (s : string) : bool :=
  match s with
  | EmptyString => true
  | String c s' => (nat_of_ascii c <? 128)%nat && isAscii s'
  end.

(** The strings made of white space only. *)
Fixpoint isBlank (s : string) : bool :=
  match s with
  | EmptyString => true
  | String c s' => isWhiteSpace c && isBlank s'
  end.

(** [l.join(sep)] on an array of strings. *)
Fixpoint join (sep : string) (l : list string) : string :=
  match l with
  | [] => EmptyString
  | x :: l' =>
      match l' with
      | [] => x
      | _ => (x ++ sep ++ join sep l')%string
      end
  end.

End JS.

(** ** Data model *)

Module Ingredient.
Record t := mk {
  name : string;
  role : string;
  active : option bool;
  allergenic : option bool;
  controversial : option (list string)
}.
End Ingredient.

Module Review.
Record t := mk {
  user : string;
  rating : Q;
  comment : string
}.
End Review.

Module Product.
Record t := mk {
  id : string;
  name : string;
  brand : string;
  category : string;
  inci : list Ingredient.t;
  usage : string;
  skinTypes : list string;
  reviews : list Review.t
}.
End Product.

(** ** Utilities *)

(** [averageRating]: the guard [!reviews] covers a value outside the declared
    type [Review[]]; on a list only the length test remains. *)
Definition averageRating (reviews : list Review.t) : Q :=
  if (List.length reviews =? 0)%nat then 0
  else
    let sum := fold_left (fun acc r => acc + Review.rating r) reviews 0 in
    sum / inject_Z (Z.of_nat (List.length reviews)).

(** The arithmetic mean as the specification words it: the sum of the rating
    fields divided by the number of reviews. *)
Definition sumOfRatings (reviews : list Review.t) : Q :=
  fold_right Qplus 0 (map Review.rating reviews).

Definition arithmeticMean (reviews : list Review.t) : Q :=
  sumOfRatings reviews / inject_Z (Z.of_nat (List.length reviews)).

(** [roleLabel]: the label table is an object literal read with [map[role]],
    with the role itself as the fall-back of [??]. *)
Definition roleLabel_map : list (string * string) :=
  [ ("moisturizer", "Hidratante");
    ("antioxidant", "Antioxidante");
    ("preservative", "Conservante");
    ("sunscreen", "Filtro solar");
    ("fragrance", "Fragrância");
    ("humectant", "Umectante");
    ("emollient", "Emoliente");
    ("surfactant", "Tensoativo");
    ("exfoliant", "Esfoliante") ].

Definition roleLabel (role : string) : JS.value :=
  JS.nullish (JS.get roleLabel_map role) (JS.VString role).

(** The nine tags of the type [IngredientRole]. *)
Definition IngredientRole : list string :=
  [ "moisturizer"; "antioxidant"; "preservative"; "sunscreen"; "fragrance";
    "humectant"; "emollient"; "surfactant"; "exfoliant" ].

(** What React makes of a value given as the child of a table cell: a
    string is shown; a function is not shown (a warning is logged); a plain
    object, such as the prototype object read under [__proto__], makes the
    render throw. *)
Definition renderChild (v : JS.value) : option string :=
  match v with
  | JS.VString s => Some s
  | JS.VInherited key => if String.eqb key "__proto__" then None else Some ""
  end.

(** The rows of the ingredient table of the detail view
    ([product.inci.map((ing, idx) => <tr> ... </tr>)]): one row per
    ingredient, with its name and the label of its role; [None] when the
    render throws. *)
Fixpoint renderRows (inci : list Ingredient.t) : option (list (string * string)) :=
  match inci with
  | [] => Some []
  | ing :: inci' =>
      match renderChild (roleLabel (Ingredient.role ing)), renderRows inci' with
      | Some cell, Some rows => Some ((Ingredient.name ing, cell) :: rows)
      | _, _ => None
      end
  end.

Definition ingredientRows (product : Product.t) : option (list (string * string)) :=
  renderRows (Product.inci product).

(** ** The component's derived state *)

(** The sentinel of the category selector. *)
Definition todas : string := "todas".

(** The three predicates of the [filter] callback, on the already normalised
    query [q] and category [cat]. *)
Definition matchesText (q : string) (p : Product.t) : bool :=
  JS.falsy q
  || JS.includes (JS.toLowerCase (Product.name p)) q
  || JS.includes (JS.toLowerCase (Product.brand p)) q
  || JS.includes (JS.toLowerCase (Product.category p)) q
  || existsb (fun ing => JS.includes (JS.toLowerCase (Ingredient.name ing)) q)
             (Product.inci p).

Definition matchesCat (cat : string) (p : Product.t) : bool :=
  String.eqb cat todas || String.eqb (JS.toLowerCase (Product.category p)) cat.

Definition matchesRating (minRating : Q) (p : Product.t) : bool :=
  Qle_bool minRating (averageRating (Product.reviews p)).

(** The comparator handed to [sort]. *)
Definition byRatingDesc (a b : Product.t) : Q :=
  averageRating (Product.reviews b) - averageRating (Product.reviews a).

(** The filter state: the applied (debounced) query, the selected category
    and the minimum rating. *)
Record Filters := mkFilters {
  debouncedQuery : string;
  category : string;
  minRating : Q
}.

Definition keep (f : Filters) (p : Product.t) : bool :=
  let q := JS.toLowerCase (JS.trim (debouncedQuery f)) in
  let cat := JS.toLowerCase (category f) in
  matchesText q p && matchesCat cat p && matchesRating (minRating f) p.

(** [filtered]: the value of the memo, as a function of its dependencies. *)
Definition filtered (products : list Product.t) (f : Filters) : list Product.t :=
  let list := List.filter (keep f) products in
  JS.sort byRatingDesc list.

(** [categories]. *)
Definition categories (products : list Product.t) : list string :=
  let base := JS.Set_from (map Product.category products) in
  todas :: base.

(** [focusedProduct]: [p.id === focusId] is false for every product when
    [focusId] is [null]. *)
Definition idIs (focusId : option string) (p : Product.t) : bool :=
  match focusId with
  | Some i => String.eqb (Product.id p) i
  | None => false
  end.

Definition focusedProduct (products : list Product.t) (focusId : option string)
  : option Product.t :=
  JS.nullish (option_map Some (JS.find (idIs focusId) products)) None.

(** ** The seed catalog *)

(** The line feed of the [usage] texts. *)
Definition nl : string := String "010"%char EmptyString.

Definition mock_p1 : Product.t :=
  Product.mk "p1"
    "Derma Glow Hidratante Facial"
    "CosmoLab"
    "hidratante"
    [
      Ingredient.mk "Aqua" "solvent" None None None;
      Ingredient.mk "Glycerin" "humectant" (Some true) None None;
      Ingredient.mk "Sodium Hyaluronate (Hyaluronic Acid)" "humectant" (Some true) None None;
      Ingredient.mk "Caprylic/Capric Triglyceride" "emollient" None None None;
      Ingredient.mk "Phenoxyethanol" "preservative" None None (Some ["conservante sintético"]);
      Ingredient.mk "Parfum (Fragrance)" "fragrance" None (Some true) None ]
    ("Aplicar de 1 a 2 pumps sobre a pele limpa, de manhã e à noite." ++ nl ++
     "Reaplicar em áreas ressecadas quando necessário.")
    ["seca"; "mista"; "sensível"]
    [
      Review.mk "Ana P." 5 "Deixou minha pele macia sem pesar.";
      Review.mk "Larissa" 4 "Hidrata bem, cheiro suave." ].

Definition mock_p2 : Product.t :=
  Product.mk "p2"
    "UV Defense Pro SPF 50"
    "Solaris"
    "protetor solar"
    [
      Ingredient.mk "Aqua" "solvent" None None None;
      Ingredient.mk "Homosalate" "sunscreen" (Some true) None (Some ["filtro químico"]);
      Ingredient.mk "Octocrylene" "sunscreen" (Some true) None (Some ["filtro químico"]);
      Ingredient.mk "Butyl Methoxydibenzoylmethane (Avobenzone)" "sunscreen" (Some true) None None;
      Ingredient.mk "Silica" "emollient" None None None;
      Ingredient.mk "Phenoxyethanol" "preservative" None None None ]
    ("Aplicar generosamente 15 minutos antes da exposição solar." ++ nl ++
     "Reaplicar a cada 2 horas e após suor intenso, natação ou secar-se com toalha.")
    ["oleosa"; "mista"]
    [
      Review.mk "Carlos" 4 "Textura leve e acabamento matte.";
      Review.mk "Bianca" 3 "Boa proteção, poderia ser menos perfumado." ].

Definition mock_p3 : Product.t :=
  Product.mk "p3"
    "Clean Foam Gel"
    "PureSkin"
    "limpeza"
    [
      Ingredient.mk "Aqua" "solvent" None None None;
      Ingredient.mk "Cocamidopropyl Betaine" "surfactant" None None None;
      Ingredient.mk "Sodium Laureth Sulfate" "surfactant" None None (Some ["SLES"]);
      Ingredient.mk "Aloe Barbadensis Leaf Juice" "moisturizer" (Some true) None None;
      Ingredient.mk "Parfum (Fragrance)" "fragrance" None (Some true) None ]
    "Massagear sobre a pele úmida e enxaguar. Usar 1–2x ao dia."
    ["oleosa"; "mista"]
    [
      Review.mk "João" 4 "Lava bem e não repuxa.";
      Review.mk "Vivi" 2 "Achei um pouco agressivo para pele sensível." ].

Definition mock_p4 : Product.t :=
  Product.mk "p4"
    "Night Repair Serum"
    "Reviva"
    "anti-idade"
    [
      Ingredient.mk "Aqua" "solvent" None None None;
      Ingredient.mk "Retinol" "antioxidant" (Some true) None (Some ["fotossensível"]);
      Ingredient.mk "Niacinamide" "antioxidant" (Some true) None None;
      Ingredient.mk "Squalane" "emollient" None None None;
      Ingredient.mk "Phenoxyethanol" "preservative" None None None ]
    "Aplicar à noite sobre a pele limpa. Iniciar 2–3x/semana e aumentar conforme tolerância. Usar protetor solar durante o dia."
    ["mista"; "normal"]
    [
      Review.mk "Priscila" 5 "Pele mais viçosa após 3 semanas.";
      Review.mk "Renata" 4 "Textura ótima, sem irritar." ].

Definition mock_p5 : Product.t :=
  Product.mk "p5"
    "Hydra Calm Creme"
    "Dermasoft"
    "hidratante"
    [
      Ingredient.mk "Aqua" "solvent" None None None;
      Ingredient.mk "Ceramide NP" "moisturizer" (Some true) None None;
      Ingredient.mk "Shea Butter (Butyrospermum Parkii)" "emollient" None None None;
      Ingredient.mk "Allantoin" "moisturizer" None None None;
      Ingredient.mk "Methylparaben" "preservative" None None (Some ["parabeno"]) ]
    "Aplicar no rosto e pescoço após a limpeza, de manhã e à noite."
    ["seca"; "sensível"]
    [
      Review.mk "Luca" 4 "Calmou bastante a vermelhidão.";
      Review.mk "Bia" 5 "Muito nutritivo, rende bem." ].

Definition mock_p6 : Product.t :=
  Product.mk "p6"
    "AHA 8% Peeling Solution"
    "SkinTune"
    "tratamento"
    [
      Ingredient.mk "Aqua" "solvent" None None None;
      Ingredient.mk "Glycolic Acid" "exfoliant" (Some true) None (Some ["ácido AHA"]);
      Ingredient.mk "Propylene Glycol" "humectant" None None None;
      Ingredient.mk "Panthenol" "moisturizer" None None None;
      Ingredient.mk "Phenoxyethanol" "preservative" None None None ]
    "Aplicar à noite 1–2x/semana por até 10 minutos. Enxaguar. Usar protetor solar no dia seguinte."
    ["mista"; "oleosa"]
    [
      Review.mk "Marcos" 3 "Esfolia bem, sensação de ardor leve.";
      Review.mk "Keyla" 4 "Pele mais lisa após 1 mês." ].

Definition MOCK_PRODUCTS : list Product.t :=
  [ mock_p1; mock_p2; mock_p3; mock_p4; mock_p5; mock_p6 ].

(** ** Inputs outside the seed data *)


(** Reviews in the expected range whose mean is not a double. *)
Definition threeInRange : list Review.t :=
  [ Review.mk "a" 5 "Sample"; Review.mk "b" 4 "Sample"; Review.mk "c" 4 "Sample" ].

(** Reviews whose sum loses a term to rounding: 1e16, 1, -1e16, -0.5. *)
Definition cancelling : list Review.t :=
  [ Review.mk "a" 10000000000000000 "Sample";
    Review.mk "b" 1 "Sample";
    Review.mk "c" (-10000000000000000) "Sample";
    Review.mk "d" (-(1 # 2)) "Sample" ].



(** A product with an ingredient tagged [solvent] and one tagged
    [__proto__]. *)
Definition protoTagged : Product.t :=
  Product.mk "t1" "Sample" "Acme" "limpeza"
    [ Ingredient.mk "Aqua" "solvent" None None None;
      Ingredient.mk "Glycerin" "__proto__" None None None ]
    "Sample" [] [].

(** ** Notions of the specification *)

(** Letters of the ASCII range, up to case. *)
Definition isCapital (c : ascii) : bool :=
  let n := nat_of_ascii c in ((65 <=? n) && (n <=? 90))%nat.

Definition sameLetter (c d : ascii) : bool :=
  let m := nat_of_ascii c in
  let n := nat_of_ascii d in
  ((m =? n) || (isCapital c && (n =? m + 32)) || (isCapital d && (m =? n + 32)))%nat.

(** Two texts are equal up to the case of their letters. *)
Fixpoint equalIgnoringCase (a b : string) : bool :=
  match a, b with
  | EmptyString, EmptyString => true
  | String c a', String d b' => sameLetter c d && equalIgnoringCase a' b'
  | _, _ => false
  end.

(** [q] occurs in [s] up to the case of the letters. *)
Definition OccursIgnoringCase (q s : string) : Prop :=
  exists pre mid post : string,
    s = (pre ++ mid ++ post)%string /\ equalIgnoringCase mid q = true.





(** Reviews on which the doubles behave as the rationals: at most a million
    of them, each rated by an integer from -1000 to 1000.  The sums are then
    exact in double arithmetic, and the quotients by the number of reviews
    round to doubles that compare as the exact quotients do. *)
Definition integerRating (q : Q) : bool :=
  (Pos.eqb (Qden q) 1 && (-1000 <=? Qnum q)%Z && (Qnum q <=? 1000)%Z).

Definition integerRatings (reviews : list Review.t) : bool :=
  (Z.of_nat (List.length reviews) <=? 1000000)%Z &&
  forallb (fun r => integerRating (Review.rating r)) reviews.




(** [q] is a substring of [s]: it occurs in [s] between some prefix and some
    suffix. *)
Definition Substring (q s : string) : Prop :=
  exists pre post : string, s = (pre ++ q ++ post)%string.

(** The distinct elements of a list, each at the place of its first
    occurrence. *)
Fixpoint distinct (l : list string) : list string :=
  match l with
  | [] => []
  | x :: l' => x :: List.filter (fun y => negb (String.eqb x y)) (distinct l')
  end.

(** The products are listed by non-increasing average rating. *)
Definition ratingNonIncreasing (l : list Product.t) : Prop :=
  StronglySorted
    (fun a b => averageRating (Product.reviews b) <= averageRating (Product.reviews a))
    l.




(** ** The arithmetic on doubles

    The rating computations of the component over IEEE-754 binary64, with
    the operations of Rocq's primitive floats. *)

Module Double.

(** The double nearest to an integer. *)
Definition ofZ (z : Z) : PrimFloat.float :=
  FloatOps.SF2Prim
    (SpecFloat.binary_normalize FloatOps.prec FloatOps.emax z 0 false).

(** The double a decimal literal denotes: the quotient of numerator and
    denominator, correctly rounded when both are doubles themselves (as for
    a literal of at most 15 significant digits). *)
Definition ofQ (q : Q) : PrimFloat.float :=
  PrimFloat.div (ofZ (Qnum q)) (ofZ (Zpos (Qden q))).

(** The number a finite double stands for. *)
Definition toQ (x : PrimFloat.float) : option Q :=
  match FloatOps.Prim2SF x with
  | SpecFloat.S754_zero _ => Some 0
  | SpecFloat.S754_finite s m e =>
      Some ((if s then - (1) else 1) * inject_Z (Zpos m) * 2 ^ e)
  | _ => None
  end.

Definition represents (x : PrimFloat.float) (v : Q) : bool :=
  match toQ x with
  | Some q => Qeq_bool q v
  | None => false
  end.

(** [averageRating]. *)
Definition sumOf (reviews : list Review.t) : PrimFloat.float :=
  fold_left (fun acc r => PrimFloat.add acc (ofQ (Review.rating r)))
            reviews PrimFloat.zero.

Definition averageRating (reviews : list Review.t) : PrimFloat.float :=
  if (List.length reviews =? 0)%nat then PrimFloat.zero
  else
    let sum := sumOf reviews in
    PrimFloat.div sum (ofZ (Z.of_nat (List.length reviews))).

(** [averageRating(p.reviews) >= minRating]. *)
Definition matchesRating (minRating : Q) (p : Product.t) : bool :=
  PrimFloat.leb (ofQ minRating) (averageRating (Product.reviews p)).

(** The comparator handed to [sort]. *)
Definition byRatingDesc (a b : Product.t) : PrimFloat.float :=
  PrimFloat.sub (averageRating (Product.reviews b))
                (averageRating (Product.reviews a)).

(** [Array.prototype.sort(cmp)], as [JS.sort], on the sign of a double: an
    element moves behind a later one only when the comparator is greater
    than zero ([NaN] counts as zero). *)
Fixpoint insert (x : Product.t) (l : list Product.t) : list Product.t :=
  match l with
  | [] => [x]
  | y :: l' =>
      if PrimFloat.ltb PrimFloat.zero (byRatingDesc x y)
      then y :: insert x l'
      else x :: l
  end.

Fixpoint sort (l : list Product.t) : list Product.t :=
  match l with
  | [] => []
  | x :: l' => insert x (sort l')
  end.

Definition keep (f : Filters) (p : Product.t) : bool :=
  let q := JS.toLowerCase (JS.trim (debouncedQuery f)) in
  let cat := JS.toLowerCase (category f) in
  matchesText q p && matchesCat cat p && matchesRating (minRating f) p.

(** [filtered]. *)
Definition filtered (products : list Product.t) (f : Filters) : list Product.t :=
  let list := List.filter (keep f) products in
  sort list.

(** The operations that do not round.  An addition or a division is exact
    when its result stands for the sum or the quotient of what its operands
    stand for; a literal is exact when its double stands for it. *)
Definition exactAdd (a b : PrimFloat.float) : bool :=
  match toQ a, toQ b, toQ (PrimFloat.add a b) with
  | Some qa, Some qb, Some qr => Qeq_bool qr (qa + qb)
  | _, _, _ => false
  end.

Definition exactDiv (a b : PrimFloat.float) : bool :=
  match toQ a, toQ b, toQ (PrimFloat.div a b) with
  | Some qa, Some qb, Some qr => Qeq_bool qr (qa / qb)
  | _, _, _ => false
  end.

Fixpoint exactSum (acc : PrimFloat.float) (reviews : list Review.t) : bool :=
  match reviews with
  | [] => true
  | r :: reviews' =>
      let x := ofQ (Review.rating r) in
      represents x (Review.rating r) && exactAdd acc x &&
      exactSum (PrimFloat.add acc x) reviews'
  end.

(** No step of [averageRating] rounds on these reviews. *)
Definition exact (reviews : list Review.t) : bool :=
  let n := ofZ (Z.of_nat (List.length reviews)) in
  exactSum PrimFloat.zero reviews &&
  represents n (inject_Z (Z.of_nat (List.length reviews))) &&
  exactDiv (sumOf reviews) n.

End Double.

(** ** Arrays as mutable objects

    [filter] allocates a fresh array and [sort] reorders its receiver in
    place, so the derivation of [filtered] is also written over a heap:
    arrays are heap cells that hold references to product objects, and the
    array returned by [filter] shares its elements with the seed array. *)

Module Heap.

Definition ref := nat.

Record heap := mkHeap {
  object : ref -> Product.t;      (* the product objects *)
  arrays : list (list ref)        (* the arrays, by reference *)
}.

(** Computations that read and update the heap. *)
Definition M (A : Type) : Type := heap -> A * heap.

Definition ret {A : Type} (a : A) : M A := fun h => (a, h).

Definition bind {A B : Type} (m : M A) (k : A -> M B) : M B :=
  fun h => let (a, h') := m h in k a h'.

Notation "x <- m ;; k" := (bind m (fun x => k))
  (at level 61, m at next level, right associativity).

Definition elements (a : ref) (h : heap) : list ref :=
  nth a (arrays h) [].

(** The products an array holds, in order. *)
Definition contents (a : ref) (h : heap) : list Product.t :=
  map (object h) (elements a h).

Definition alloc (l : list ref) : M ref :=
  fun h => (List.length (arrays h), mkHeap (object h) (arrays h ++ [l])).

Fixpoint update (a : ref) (l : list ref) (cells : list (list ref))
  : list (list ref) :=
  match cells, a with
  | [], _ => []
  | _ :: cells', O => l :: cells'
  | c :: cells', S a' => c :: update a' l cells'
  end.

Definition store (a : ref) (l : list ref) : M unit :=
  fun h => (tt, mkHeap (object h) (update a l (arrays h))).

(** [a.filter(f)]: a fresh array with the elements of [a] that pass. *)
Definition Array_filter (f : Product.t -> bool) (a : ref) : M ref :=
  fun h => alloc (List.filter (fun r => f (object h r)) (elements a h)) h.

(** [a.sort(cmp)]: reorders [a] itself. *)
Definition Array_sort (cmp : Product.t -> Product.t -> Q) (a : ref) : M unit :=
  fun h =>
    store a (JS.sort (fun x y => cmp (object h x) (object h y)) (elements a h)) h.

(** The body of the [filtered] memo. *)
Definition filtered (products : ref) (f : Filters) : M ref :=
  list <- Array_filter (keep f) products ;;
  _ <- Array_sort byRatingDesc list ;;
  ret list.

(** The body of the [categories] memo: [map], [new Set], [Array.from] and
    the array literal read [products] and build values of their own. *)
Definition categories (products : ref) : M (list string) :=
  fun h => (categories (contents products h), h).

End Heap.

(** ** The debounce of the query

    The effect [useEffect(() => { const t = setTimeout(() =>
    setDebouncedQuery(query), 250); return () => clearTimeout(t); }, [query])]
    over a table of timers and a clock that advances in milliseconds. *)

Module Debounce.

Record timer := mkTimer {
  handle : nat;          (* what [setTimeout] returned *)
  remaining : nat;       (* milliseconds until the callback runs *)
  captured : string      (* the [query] the callback closes over *)
}.

Record state := mkState {
  query : string;
  debouncedQuery : string;
  timers : list timer;           (* the timers that are set *)
  nextHandle : nat;
  cleanup : option nat           (* the [t] of the effect's cleanup *)
}.

Definition delay : nat := 250.

(** [setTimeout(() => setDebouncedQuery(v), delay)]. *)
Definition setTimeout (v : string) (s : state) : nat * state :=
  (nextHandle s,
   mkState (query s) (debouncedQuery s)
           (timers s ++ [mkTimer (nextHandle s) delay v])
           (S (nextHandle s)) (cleanup s)).

(** [clearTimeout(t)]. *)
Definition clearTimeout (t : nat) (s : state) : state :=
  mkState (query s) (debouncedQuery s)
          (List.filter (fun tm => negb (handle tm =? t)%nat) (timers s))
          (nextHandle s) (cleanup s).

(** The cleanup of the previous run of the effect, when there is one. *)
Definition runCleanup (s : state) : state :=
  match cleanup s with
  | Some t => clearTimeout t s
  | None => s
  end.

(** A run of the effect body for the current [query]. *)
Definition runEffect (s : state) : state :=
  let (t, s') := setTimeout (query s) s in
  mkState (query s') (debouncedQuery s') (timers s') (nextHandle s') (Some t).

(** The first render: both states start from the empty string and the
    effect runs once. *)
Definition mount : state :=
  runEffect (mkState "" "" [] 0 None).

(** [setQuery(v)]: a value equal to the current one changes nothing; a new
    value re-renders, and the dependency [query] having changed, the old
    cleanup runs and then the effect. *)
Definition setQuery (v : string) (s : state) : state :=
  if String.eqb v (query s) then s
  else
    runEffect
      (runCleanup
         (mkState v (debouncedQuery s) (timers s) (nextHandle s) (cleanup s))).

(** [setDebouncedQuery(v)]: [query] is not touched, so the effect does not
    run again. *)
Definition setDebouncedQuery (v : string) (s : state) : state :=
  mkState (query s) v (timers s) (nextHandle s) (cleanup s).

(** One millisecond passes: every timer comes one millisecond closer, and
    those that are due run their callbacks, oldest first. *)
Definition age (tm : timer) : timer :=
  mkTimer (handle tm) (Nat.pred (remaining tm)) (captured tm).

Definition due (tm : timer) : bool := (remaining tm =? 0)%nat.

Definition tick (s : state) : state :=
  let aged := map age (timers s) in
  fold_left
    (fun s' tm => setDebouncedQuery (captured tm) s')
    (List.filter due aged)
    (mkState (query s) (debouncedQuery s)
             (List.filter (fun tm => negb (due tm)) aged)
             (nextHandle s) (cleanup s)).

Inductive event :=
| Edit (v : string)      (* the input calls [onQueryChange(v)] *)
| Tick.                  (* one millisecond passes *)

Definition step (s : state) (e : event) : state :=
  match e with
  | Edit v => setQuery v s
  | Tick => tick s
  end.

Definition exec (s : state) (evs : list event) : state :=
  fold_left step evs s.

(** The states the component goes through, one per event. *)
Fixpoint trace (s : state) (evs : list event) : list state :=
  match evs with
  | [] => []
  | e :: evs' => step s e :: trace (step s e) evs'
  end.

Definition ticks (n : nat) : list event := repeat Tick n.

(** The milliseconds for which the query has had its present value: the
    ticks since the last edit that changed it. *)
Definition quietStep (qt : string * nat) (e : event) : string * nat :=
  match e with
  | Edit v => if String.eqb v (fst qt) then qt else (v, 0%nat)
  | Tick => (fst qt, S (snd qt))
  end.

Definition quietTime (evs : list event) : nat :=
  snd (fold_left quietStep evs ("", 0%nat)).

(** The shapes of the timer table: no timer is set; or exactly one is, it
    carries the present query and has [r] milliseconds to go, and the
    cleanup of the effect holds its handle. *)
Definition Idle (s : state) : Prop := timers s = [].

Definition Pending (s : state) (r : nat) : Prop :=
  exists h : nat, timers s = [mkTimer h r (query s)] /\ cleanup s = Some h.

Definition Ready (s : state) : Prop :=
  Idle s \/ exists r : nat, (0 < r)%nat /\ Pending s r.

(** The state together with the record of the quiet time. *)
Definition Inv (s : state) (qt : string * nat) : Prop :=
  fst qt = query s /\
  (Idle s \/
   exists r : nat, (0 < r)%nat /\ Pending s r /\ (r + snd qt = delay)%nat).

(** The three edits of the scenario, [d0] milliseconds after the first
    render and [d1], [d2] milliseconds apart, followed by [d3] milliseconds. *)
Definition typingABC (d0 d1 d2 d3 : nat) : list event :=
  ticks d0 ++ Edit "a" :: ticks d1 ++ Edit "ab" :: ticks d2 ++
  Edit "abc" :: ticks d3.

End Debounce.

(** ** A heap for the seed catalog *)

(** The heap after the first render: the six product objects and the seed
    array, at reference [0]. *)
Definition seedHeap : Heap.heap :=
  Heap.mkHeap (fun r => nth r MOCK_PRODUCTS mock_p1)
              [[0; 1; 2; 3; 4; 5]%nat].

Definition hidratante4 : Filters := mkFilters "" "hidratante" 4.

(** ** Presentation helpers *)

(** [capitalize]. *)
Definition capitalize (s : string) : string :=
  (JS.toUpperCase (JS.charAt 0 s) ++ JS.slice 1 s)%string.

(** The five stars of the [Rating] component, in order: [true] for a star
    drawn at full opacity ([i < filled]), [false] for a dimmed one. *)
Definition Rating_stars (value : Q) : list bool :=
  let filled := JS.Math_round value in
  map (fun i => (i <? filled)%Z) [0; 1; 2; 3; 4]%Z.

(** The number of stars at full opacity. *)
Definition filledStars (value : Q) : nat :=
  List.length (List.filter (fun b => b) (Rating_stars value)).

(** The query as the filter uses it. *)
Definition normalized (query : string) : string :=
  JS.toLowerCase (JS.trim query).

(** The texts the query has held through a run of the debounce: the initial
    empty string and the value of every edit. *)
Fixpoint typed (evs : list Debounce.event) : list string :=
  match evs with
  | [] => [""]
  | Debounce.Edit v :: evs' => v :: typed evs'
  | Debounce.Tick :: evs' => typed evs'
  end.

(** ** What the page shows *)

(** [EmptyState]: the message for a query that is not the empty string
    echoes it; the empty string gives the invitation to use the search. *)
Inductive EmptyMessage :=
| NoResultsFor (query : string)
| UseTheSearch.

Definition EmptyState (query : string) : EmptyMessage :=
  if JS.falsy query then UseTheSearch else NoResultsFor query.

(** The results section: the empty state, given the applied query as it was
    typed, when the derived list is empty, and otherwise one card per
    product of the list. *)
Inductive Results :=
| Empty (message : EmptyMessage)
| Grid (cards : list Product.t).

Definition results (products : list Product.t) (f : Filters) : Results :=
  if (List.length (filtered products f) =? 0)%nat
  then Empty (EmptyState (debouncedQuery f))
  else Grid (filtered products f).

(** The number in the heading of the results section. *)
Definition resultCount (products : list Product.t) (f : Filters) : nat :=
  List.length (filtered products f).

(** The label of the controversy badge of a row of the ingredient table,
    when the row has one
    ([ing.controversial && ing.controversial.length > 0 && ...]). *)
Definition controversyBadge (ing : Ingredient.t) : option string :=
  match Ingredient.controversial ing with
  | Some reasons =>
      if (0 <? List.length reasons)%nat
      then Some ("Controverso: " ++ JS.join ", " reasons)%string
      else None
  | None => None
  end.

(** ** Average rating *)

Lemma fold_left_ratings (rs : list Review.t) (acc : Q) :
  fold_left (fun acc r => acc + Review.rating r) rs acc == acc + sumOfRatings rs.
Proof.
  revert acc. induction rs as [|r rs IH]; intros acc; simpl.
  - unfold sumOfRatings; simpl. ring.
  - rewrite IH. unfold sumOfRatings; simpl. ring.
Qed.


Lemma represents_value (x : PrimFloat.float) (v : Q) :
  Double.represents x v = true ->
  exists q : Q, Double.toQ x = Some q /\ q == v.
Proof.
  unfold Double.represents. destruct (Double.toQ x) as [q|]; [|discriminate].
  intros H. exists q. split; [reflexivity | now apply Qeq_bool_iff].
Qed.

Lemma exactSum_value (rs : list Review.t) (acc : PrimFloat.float) (qa : Q) :
  Double.toQ acc = Some qa ->
  Double.exactSum acc rs = true ->
  exists q : Q,
    Double.toQ
      (fold_left (fun acc r => PrimFloat.add acc (Double.ofQ (Review.rating r)))
                 rs acc) = Some q /\
    q == qa + sumOfRatings rs.
Proof.
  revert acc qa. induction rs as [|r rs IH]; intros acc qa Hacc Hex.
  - exists qa. split; [exact Hacc|]. unfold sumOfRatings. simpl. ring.
  - cbn [Double.exactSum] in Hex. cbv zeta in Hex.
    apply andb_true_iff in Hex as [Hex Hrest].
    apply andb_true_iff in Hex as [Hlit Hadd].
    apply represents_value in Hlit as (qx & Hx & Ex).
    unfold Double.exactAdd in Hadd. rewrite Hacc, Hx in Hadd.
    destruct (Double.toQ (PrimFloat.add acc (Double.ofQ (Review.rating r))))
      as [qs|] eqn:Hs; [|discriminate].
    apply Qeq_bool_iff in Hadd.
    destruct (IH _ qs Hs Hrest) as (q & Hq & Eq).
    exists q. split; [exact Hq|].
    rewrite Eq, Hadd, Ex. unfold sumOfRatings. simpl. ring.
Qed.

(** C1, as the claim words it, fails: the sum and the quotient are those of
    doubles.  Three reviews rated 5, 4 and 4 average the double below, which
    is not their mean 13/3; and reviews rated 1e16, 1, -1e16 and -0.5
    average -1/8, while their mean is 1/8. *)
Lemma averageRating_rounds :
  Double.represents (Double.averageRating threeInRange)
                    (4878899596318037 # 1125899906842624) = true /\
  arithmeticMean threeInRange == 13 # 3 /\
  Qeq_bool (4878899596318037 # 1125899906842624) (13 # 3) = false /\
  Double.represents (Double.averageRating cancelling) (- (1 # 8)) = true /\
  arithmeticMean cancelling == 1 # 8.
Proof.
  repeat split; vm_compute; reflexivity.
Qed.

(** C1, amended.  [averageRating] is [0] on the empty list of reviews; on
    every other list it is the quotient, in double arithmetic, of the sum of
    the ratings taken from left to right by their number, and so the
    arithmetic mean itself whenever no literal, no addition and not the
    division rounds. *)
Theorem averageRating_exact :
  Double.averageRating [] = PrimFloat.zero /\
  (forall (r : Review.t) (rs : list Review.t),
     Double.averageRating (r :: rs) =
     PrimFloat.div (Double.sumOf (r :: rs))
                   (Double.ofZ (Z.of_nat (List.length (r :: rs))))) /\
  (forall (r : Review.t) (rs : list Review.t),
     Double.exact (r :: rs) = true ->
     exists q : Q,
       Double.toQ (Double.averageRating (r :: rs)) = Some q /\
       q == arithmeticMean (r :: rs)).
Proof.
  split; [reflexivity|]. split; [reflexivity|].
  intros r rs H. unfold Double.exact in H. cbv zeta in H.
  apply andb_true_iff in H as [H Hdiv].
  apply andb_true_iff in H as [Hsum Hn].
  assert (Z : Double.toQ PrimFloat.zero = Some 0) by reflexivity.
  destruct (exactSum_value (r :: rs) PrimFloat.zero 0 Z Hsum) as (qs & Hs & Es).
  apply represents_value in Hn as (qn & Hqn & En).
  fold (Double.sumOf (r :: rs)) in Hs.
  unfold Double.exactDiv in Hdiv. rewrite Hs, Hqn in Hdiv.
  change (Double.averageRating (r :: rs))
    with (PrimFloat.div (Double.sumOf (r :: rs))
            (Double.ofZ (Z.of_nat (List.length (r :: rs))))).
  destruct (Double.toQ (PrimFloat.div (Double.sumOf (r :: rs))
              (Double.ofZ (Z.of_nat (List.length (r :: rs)))))) as [q|];
    [|discriminate].
  apply Qeq_bool_iff in Hdiv. exists q. split; [reflexivity|].
  rewrite Hdiv, Es, En. unfold arithmeticMean. now rewrite Qplus_0_l.
Qed.

Lemma averageRating_exact_seed :
  exists q : Q,
    Double.toQ (Double.averageRating (Product.reviews mock_p3)) = Some q /\
    q == arithmeticMean (Product.reviews mock_p3).
Proof.
  destruct averageRating_exact as (_ & _ & H).
  apply (H (Review.mk "João" 4 "Lava bem e não repuxa.")
           [Review.mk "Vivi" 2 "Achei um pouco agressivo para pele sensível."]).
  vm_compute. reflexivity.
Defined.

Lemma sumOfRatings_perm (rs rs' : list Review.t) :
  Permutation rs rs' -> sumOfRatings rs == sumOfRatings rs'.
Proof.
  unfold sumOfRatings.
  induction 1 as [|r l l' _ IH|r r' l|l l' l'' _ IH1 _ IH2]; simpl.
  - reflexivity.
  - now rewrite IH.
  - ring.
  - now rewrite IH1.
Qed.

(** X1. For reviews rated by integers (at most a million of them, of
    magnitude at most 1000), the average rating does not depend on the order
    of the reviews. *)
Theorem averageRating_perm (rs rs' : list Review.t)
  (H : Permutation rs rs') (Hint : integerRatings rs = true) :
  averageRating rs == averageRating rs'.
Proof.
  unfold averageRating.
  rewrite <- (Permutation_length H).
  destruct (List.length rs =? 0)%nat; [reflexivity|].
  cbv zeta. rewrite !fold_left_ratings, (sumOfRatings_perm rs rs' H).
  reflexivity.
Qed.

Lemma averageRating_perm_seed :
  averageRating (rev (Product.reviews mock_p3)) ==
  averageRating (Product.reviews mock_p3).
Proof.
  apply (averageRating_perm (rev (Product.reviews mock_p3)) (Product.reviews mock_p3)).
  - apply Permutation_sym, Permutation_rev.
  - reflexivity.
Defined.

(** ** Strings *)

Lemma prefix_app (q s : string) :
  String.prefix q s = true <-> exists post, s = (q ++ post)%string.
Proof.
  revert s. induction q as [|a q IH]; intros [|b s]; simpl.
  - split; eauto.
  - split; eauto.
  - split; [discriminate | intros [post H]; discriminate].
  - destruct (ascii_dec a b) as [->|Hab].
    + rewrite IH. split; intros [post H]; exists post.
      * now rewrite H.
      * now inversion H.
    + split; [discriminate|]. intros [post H]. inversion H. congruence.
Qed.

Lemma includes_spec (s q : string) :
  JS.includes s q = true <-> Substring q s.
Proof.
  unfold Substring. induction s as [|c s IH]; cbn [JS.includes].
  - rewrite orb_false_r, prefix_app. split.
    + intros [post H]. exists "", post. exact H.
    + intros (pre & post & H). destruct pre; [|discriminate].
      exists post. exact H.
  - rewrite orb_true_iff, prefix_app, IH. split.
    + intros [[post H] | (pre & post & H)].
      * exists "", post. exact H.
      * exists (String c pre), post. simpl. now rewrite H.
    + intros (pre & post & H). destruct pre as [|c' pre]; simpl in H.
      * left. exists post. exact H.
      * right. exists pre, post. now inversion H.
Qed.

Lemma falsy_spec (q : string) : JS.falsy q = true <-> q = "".
Proof. destruct q; simpl; split; congruence. Qed.


(** ** The text predicate *)

Lemma existsb_Exists {A : Type} (f : A -> bool) (l : list A) :
  existsb f l = true <-> Exists (fun x => f x = true) l.
Proof.
  rewrite existsb_exists, Exists_exists. reflexivity.
Qed.

Lemma matchesText_iff (q : string) (p : Product.t) :
  matchesText q p = true <->
  q = "" \/
  Substring q (JS.toLowerCase (Product.name p)) \/
  Substring q (JS.toLowerCase (Product.brand p)) \/
  Substring q (JS.toLowerCase (Product.category p)) \/
  Exists (fun ing => Substring q (JS.toLowerCase (Ingredient.name ing)))
         (Product.inci p).
Proof.
  unfold matchesText.
  rewrite !orb_true_iff, falsy_spec, !includes_spec, existsb_Exists.
  assert (E : Exists (fun ing => JS.includes (JS.toLowerCase (Ingredient.name ing)) q = true)
                (Product.inci p) <->
              Exists (fun ing => Substring q (JS.toLowerCase (Ingredient.name ing)))
                (Product.inci p)).
  { split; apply Exists_impl; intros ing; apply includes_spec. }
  rewrite E. tauto.
Qed.

(** ** The sort by rating *)

Local Abbreviation avg p := (averageRating (Product.reviews p)).

Lemma byRatingDesc_Gt (a b : Product.t) :
  (byRatingDesc a b ?= 0) = Gt <-> avg a < avg b.
Proof.
  unfold byRatingDesc. rewrite <- Qgt_alt. split; intros H; lra.
Qed.

Lemma byRatingDesc_not_Gt (a b : Product.t) :
  (byRatingDesc a b ?= 0) <> Gt <-> avg b <= avg a.
Proof.
  rewrite byRatingDesc_Gt. split; intros H; lra.
Qed.

Lemma insert_Forall {A : Type} (cmp : A -> A -> Q) (P : A -> Prop) (x : A) (l : list A) :
  P x -> Forall P l -> Forall P (JS.insert cmp x l).
Proof.
  intros Hx Hl. induction Hl as [|y l Hy Hl IH]; simpl.
  - auto.
  - destruct (cmp x y ?= 0); auto.
Qed.

Lemma insert_perm {A : Type} (cmp : A -> A -> Q) (x : A) (l : list A) :
  Permutation (JS.insert cmp x l) (x :: l).
Proof.
  induction l as [|y l IH]; simpl.
  - reflexivity.
  - destruct (cmp x y ?= 0); try reflexivity.
    rewrite IH. apply perm_swap.
Qed.

Lemma sort_perm {A : Type} (cmp : A -> A -> Q) (l : list A) :
  Permutation (JS.sort cmp l) l.
Proof.
  induction l as [|x l IH]; simpl.
  - reflexivity.
  - rewrite insert_perm. now rewrite IH.
Qed.

Lemma insert_sorted (x : Product.t) (l : list Product.t) :
  ratingNonIncreasing l -> ratingNonIncreasing (JS.insert byRatingDesc x l).
Proof.
  unfold ratingNonIncreasing.
  induction 1 as [|y l Hs IH Hy]; simpl.
  - repeat constructor.
  - destruct (byRatingDesc x y ?= 0) eqn:E.
    + assert (Hxy : avg y <= avg x) by (apply byRatingDesc_not_Gt; congruence).
      constructor; [now constructor|]. constructor; [exact Hxy|].
      eapply Forall_impl; [|exact Hy]. cbv beta. intros z Hz. lra.
    + assert (Hxy : avg y <= avg x) by (apply byRatingDesc_not_Gt; congruence).
      constructor; [now constructor|]. constructor; [exact Hxy|].
      eapply Forall_impl; [|exact Hy]. cbv beta. intros z Hz. lra.
    + apply byRatingDesc_Gt in E.
      constructor; [exact IH|].
      apply insert_Forall; [lra | exact Hy].
Qed.

Lemma sort_sorted (l : list Product.t) :
  ratingNonIncreasing (JS.sort byRatingDesc l).
Proof.
  induction l as [|x l IH]; simpl.
  - constructor.
  - now apply insert_sorted.
Qed.










(** X2. The derived list holds the products of the catalog that satisfy
    the three predicates, each as often as the catalog does, and nothing else. *)
Theorem filtered_perm (products : list Product.t) (f : Filters) :
  Permutation (filtered products f) (List.filter (keep f) products) /\
  forall p : Product.t,
    In p (filtered products f) <->
    In p products /\
    matchesText (JS.toLowerCase (JS.trim (debouncedQuery f))) p = true /\
    matchesCat (JS.toLowerCase (category f)) p = true /\
    matchesRating (minRating f) p = true.
Proof.
  assert (P : Permutation (filtered products f) (List.filter (keep f) products))
    by apply sort_perm.
  split; [exact P|].
  intros p. split.
  - intros Hin. apply (Permutation_in _ P) in Hin.
    apply filter_In in Hin as [Hin Hk]. unfold keep in Hk.
    apply andb_true_iff in Hk as [Hk Hr]. apply andb_true_iff in Hk as [Ht Hc].
    tauto.
  - intros (Hin & Ht & Hc & Hr).
    apply (Permutation_in _ (Permutation_sym P)).
    apply filter_In. split; [exact Hin|].
    unfold keep. now rewrite Ht, Hc, Hr.
Qed.

(** ** The category list *)

Lemma filter_filter_weaker {A : Type} (f g : A -> bool) (l : list A) :
  (forall y, f y = true -> g y = true) ->
  List.filter f (List.filter g l) = List.filter f l.
Proof.
  intros H. induction l as [|y l IH]; [reflexivity|].
  simpl. destruct (g y) eqn:Eg; simpl.
  - now rewrite IH.
  - destruct (f y) eqn:Ef; [|exact IH].
    apply H in Ef. congruence.
Qed.

Lemma filter_filter_and {A : Type} (f g : A -> bool) (l : list A) :
  List.filter f (List.filter g l) = List.filter (fun y => f y && g y) l.
Proof.
  induction l as [|y l IH]; [reflexivity|].
  simpl. destruct (g y); simpl.
  - rewrite andb_true_r. destruct (f y); now rewrite IH.
  - now rewrite andb_false_r.
Qed.

Lemma Set_from_acc (l acc : list string) :
  fold_left
    (fun acc x => if existsb (String.eqb x) acc then acc else acc ++ [x])
    l acc =
  acc ++ List.filter (fun y => negb (existsb (String.eqb y) acc)) (distinct l).
Proof.
  revert acc. induction l as [|x l IH]; intros acc.
  - simpl. now rewrite app_nil_r.
  - cbn [fold_left distinct List.filter].
    destruct (existsb (String.eqb x) acc) eqn:E; cbn [negb].
    + rewrite IH. f_equal. symmetry. apply filter_filter_weaker.
      intros y Hy. apply negb_true_iff. apply negb_true_iff in Hy.
      destruct (String.eqb_spec x y) as [->|]; congruence.
    + rewrite IH, <- app_assoc. cbn [app]. do 2 f_equal.
      rewrite filter_filter_and. apply filter_ext. intros y.
      rewrite existsb_app. cbn [existsb].
      rewrite orb_false_r, negb_orb, (String.eqb_sym x y). reflexivity.
Qed.

Lemma distinct_In (l : list string) (c : string) :
  In c (distinct l) <-> In c l.
Proof.
  induction l as [|x l IH]; [reflexivity|].
  cbn [distinct In]. rewrite filter_In, IH, negb_true_iff, String.eqb_neq.
  destruct (string_dec x c); tauto.
Qed.

Lemma distinct_NoDup (l : list string) : NoDup (distinct l).
Proof.
  induction l as [|x l IH]; cbn [distinct]; constructor.
  - rewrite filter_In, negb_true_iff, String.eqb_neq. tauto.
  - now apply NoDup_filter.
Qed.

(** X3. The category list is the sentinel followed by the categories of
    the catalog, each once, in the order in which the catalog first shows
    them. *)
Theorem categories_spec (products : list Product.t) :
  categories products = todas :: distinct (map Product.category products) /\
  NoDup (distinct (map Product.category products)) /\
  forall c : string,
    In c (distinct (map Product.category products)) <->
    exists p : Product.t, In p products /\ Product.category p = c.
Proof.
  split; [|split].
  - unfold categories, JS.Set_from. rewrite Set_from_acc. cbn [app].
    f_equal. rewrite <- (filter_ext (fun _ => true)) by reflexivity.
    induction (distinct _) as [|y l IH]; [reflexivity|].
    simpl. now rewrite IH.
  - apply distinct_NoDup.
  - intros c. rewrite distinct_In, in_map_iff.
    split; intros (p & H1 & H2); exists p; tauto.
Qed.

(** ** The category predicate *)

Lemma matchesCat_iff (cat : string) (p : Product.t) :
  matchesCat cat p = true <->
  cat = todas \/ JS.toLowerCase (Product.category p) = cat.
Proof.
  unfold matchesCat. now rewrite orb_true_iff, !String.eqb_eq.
Qed.



(** ** The rating predicate *)







(** ** The seed catalog *)

(** C6. Over the seed catalog, with an empty query, the category
    [hidratante] and a minimum rating of [4], the derived list is p1 then
    p5: both average 4.5 and keep the order of the catalog. *)
Theorem seed_hidratante_min4 :
  filtered MOCK_PRODUCTS (mkFilters "" "hidratante" 4) = [mock_p1; mock_p5] /\
  map Product.id (filtered MOCK_PRODUCTS (mkFilters "" "hidratante" 4))
  = ["p1"; "p5"] /\
  averageRating (Product.reviews mock_p1) == 9 # 2 /\
  averageRating (Product.reviews mock_p5) == 9 # 2.
Proof.
  repeat split; vm_compute; reflexivity.
Qed.

(** ** The focused product *)

Lemma focusedProduct_find (products : list Product.t) (focusId : option string) :
  focusedProduct products focusId = List.find (idIs focusId) products.
Proof.
  unfold focusedProduct, JS.find. now destruct (List.find _ _).
Qed.

Lemma find_unique {A : Type} (f : A -> bool) (l : list A) (x : A) :
  In x l -> f x = true ->
  (forall y, In y l -> f y = true -> y = x) ->
  List.find f l = Some x.
Proof.
  intros Hin Hx Huniq.
  destruct (List.find f l) as [y|] eqn:E.
  - apply find_some in E as [Hy Hfy]. f_equal. now apply Huniq.
  - apply (find_none _ _ E) in Hin. congruence.
Qed.

Lemma find_absent {A : Type} (f : A -> bool) (l : list A) :
  (forall y, In y l -> f y = false) -> List.find f l = None.
Proof.
  intros H. induction l as [|x l IH]; [reflexivity|].
  simpl. rewrite (H x) by now left. apply IH. intros y Hy. apply H. now right.
Qed.

(** C7. Resolving the focus id against the catalog is a total function: it
    gives the product that alone carries the id when there is one, and
    nothing ([null]) when no id is set or no product carries it. *)
Theorem focusedProduct_spec (products : list Product.t) :
  focusedProduct products None = None /\
  (forall i : string,
     (forall p, In p products -> Product.id p <> i) ->
     focusedProduct products (Some i) = None) /\
  (forall (i : string) (p : Product.t),
     In p products -> Product.id p = i ->
     (forall p', In p' products -> Product.id p' = i -> p' = p) ->
     focusedProduct products (Some i) = Some p).
Proof.
  repeat split.
  - rewrite focusedProduct_find. now apply find_absent.
  - intros i H. rewrite focusedProduct_find. apply find_absent.
    intros p Hp. simpl. apply String.eqb_neq. now apply H.
  - intros i p Hin Hid Huniq. rewrite focusedProduct_find.
    apply find_unique; [exact Hin | simpl; now apply String.eqb_eq |].
    intros p' Hp' E. simpl in E. apply String.eqb_eq in E. now apply Huniq.
Qed.

Lemma focusedProduct_seed :
  focusedProduct MOCK_PRODUCTS None = None /\
  focusedProduct MOCK_PRODUCTS (Some "p9") = None /\
  focusedProduct MOCK_PRODUCTS (Some "p3") = Some mock_p3.
Proof.
  destruct (focusedProduct_spec MOCK_PRODUCTS) as (Hnone & Habsent & Hfound).
  split; [exact Hnone|]. split.
  - apply Habsent.
    intros p [<-|[<-|[<-|[<-|[<-|[<-|[]]]]]]]; vm_compute; discriminate.
  - apply Hfound.
    + vm_compute. tauto.
    + reflexivity.
    + intros p' [<-|[<-|[<-|[<-|[<-|[<-|[]]]]]]] E;
        first [reflexivity | vm_compute in E; discriminate E].
Defined.

(** ** Role labels *)

Lemma existsb_eqb_false (x : string) (l : list string) :
  ~ In x l -> existsb (String.eqb x) l = false.
Proof.
  intros H. induction l as [|y l IH]; [reflexivity|].
  simpl. apply orb_false_iff. split.
  - apply String.eqb_neq. intros ->. apply H. now left.
  - apply IH. intros Hin. apply H. now right.
Qed.

Lemma own_absent (obj : list (string * string)) (key : string) :
  ~ In key (map fst obj) -> JS.own obj key = None.
Proof.
  induction obj as [|[k v] obj IH]; [reflexivity|].
  simpl. intros H. destruct (String.eqb_spec k key) as [->|_].
  - exfalso. apply H. now left.
  - apply IH. intros Hin. apply H. now right.
Qed.

Lemma roleLabel_map_keys : map fst roleLabel_map = IngredientRole.
Proof. reflexivity. Qed.

Lemma not_in_IngredientRole_constructor : ~ In "constructor" IngredientRole.
Proof.
  unfold IngredientRole. simpl. intros H.
  repeat (destruct H as [H|H]; [discriminate H|]). exact H.
Qed.

(** C10. The code on roles that name a member every object inherits from
    [Object.prototype]: the label table is an object literal, [map[role]]
    finds the inherited member, and the fall-back to the role itself is not
    taken.  For [constructor] the label is a function and not the role
    string; for [__proto__] it is the prototype object, and the table of a
    product that has an ingredient so tagged, beside one tagged [solvent],
    is not rendered at all. *)
Lemma roleLabel_inherited_key :
  ~ In "constructor" IngredientRole /\
  roleLabel "constructor" = JS.VInherited "constructor" /\
  roleLabel "constructor" <> JS.VString "constructor" /\
  roleLabel "__proto__" = JS.VInherited "__proto__" /\
  ingredientRows protoTagged = None.
Proof.
  split; [exact not_in_IngredientRole_constructor|].
  split; [reflexivity|]. split; [discriminate|]. split; reflexivity.
Qed.

Lemma roleLabel_fallback (role : string) :
  ~ In role IngredientRole -> ~ In role JS.Object_prototype ->
  roleLabel role = JS.VString role.
Proof.
  intros Hout Hproto. unfold roleLabel, JS.get.
  rewrite own_absent by (rewrite roleLabel_map_keys; exact Hout).
  now rewrite existsb_eqb_false.
Qed.

Lemma renderChild_roleLabel (role : string) :
  role <> "__proto__" ->
  exists cell : string, renderChild (roleLabel role) = Some cell.
Proof.
  intros H. unfold roleLabel, JS.get.
  destruct (JS.own roleLabel_map role) as [v|];
    cbn [JS.nullish renderChild]; [now exists v|].
  destruct (existsb (String.eqb role) JS.Object_prototype);
    cbn [JS.nullish renderChild].
  - apply String.eqb_neq in H. rewrite H. now exists "".
  - now exists role.
Qed.

Lemma renderRows_rendered (inci : list Ingredient.t) :
  Forall (fun i => Ingredient.role i <> "__proto__") inci ->
  exists rows : list (string * string),
    renderRows inci = Some rows /\
    List.length rows = List.length inci /\
    forall (ing : Ingredient.t) (cell : string),
      In ing inci ->
      renderChild (roleLabel (Ingredient.role ing)) = Some cell ->
      In (Ingredient.name ing, cell) rows.
Proof.
  induction 1 as [|i inci Hi _ (rows & Hrows & Hlen & Hin)].
  - exists []. repeat split. intros ing cell [].
  - destruct (renderChild_roleLabel _ Hi) as [c Hc].
    exists ((Ingredient.name i, c) :: rows). cbn [renderRows].
    rewrite Hc, Hrows. split; [reflexivity|]. split; [simpl; now rewrite Hlen|].
    intros ing cell [<-|Hing] Hcell.
    + left. congruence.
    + right. now apply Hin.
Qed.

(** ** The seed catalog is not written to *)

Lemma insert_map {A B : Type} (g : A -> B) (cmp : B -> B -> Q) (x : A) (l : list A) :
  map g (JS.insert (fun a b => cmp (g a) (g b)) x l) = JS.insert cmp (g x) (map g l).
Proof.
  induction l as [|y l IH]; [reflexivity|].
  simpl. destruct (cmp (g x) (g y) ?= 0); simpl; now rewrite ?IH.
Qed.

Lemma sort_map {A B : Type} (g : A -> B) (cmp : B -> B -> Q) (l : list A) :
  map g (JS.sort (fun a b => cmp (g a) (g b)) l) = JS.sort cmp (map g l).
Proof.
  induction l as [|x l IH]; [reflexivity|].
  simpl. now rewrite insert_map, IH.
Qed.

Lemma filter_map_pre {A B : Type} (g : A -> B) (f : B -> bool) (l : list A) :
  map g (List.filter (fun a => f (g a)) l) = List.filter f (map g l).
Proof.
  induction l as [|x l IH]; [reflexivity|].
  simpl. destruct (f (g x)); simpl; now rewrite IH.
Qed.

Lemma update_fresh (l : list Heap.ref) (x : list Heap.ref) (cells : list (list Heap.ref)) :
  Heap.update (List.length cells) l (cells ++ [x]) = cells ++ [l].
Proof.
  induction cells as [|c cells IH]; [reflexivity|].
  simpl. now rewrite IH.
Qed.

Lemma filtered_run (products : Heap.ref) (f : Filters) (h : Heap.heap) :
  Heap.filtered products f h =
  (List.length (Heap.arrays h),
   Heap.mkHeap (Heap.object h)
     (Heap.arrays h ++
      [JS.sort (fun x y => byRatingDesc (Heap.object h x) (Heap.object h y))
         (List.filter (fun r => keep f (Heap.object h r))
            (Heap.elements products h))])).
Proof.
  unfold Heap.filtered, Heap.bind, Heap.Array_filter, Heap.Array_sort,
    Heap.alloc, Heap.store, Heap.ret, Heap.elements.
  cbn [Heap.arrays Heap.object].
  rewrite nth_middle, update_fresh. reflexivity.
Qed.

(** C9. Deriving the filtered and sorted view and then the category list
    leaves the seed array as it was, with the same elements in the same
    order, and leaves every product object and every other array that
    existed untouched: [sort] reorders the array that [filter] has just
    allocated, which is not the seed array; what is returned is the list and
    the categories of the pure derivation. *)
Theorem seed_not_mutated (h : Heap.heap) (products : Heap.ref) (f : Filters)
  (Hvalid : (products < List.length (Heap.arrays h))%nat) :
  let r := Heap.filtered products f h in
  let c := Heap.categories products (snd r) in
  let h' := snd c in
  Heap.elements products h' = Heap.elements products h /\
  Heap.contents products h' = Heap.contents products h /\
  (forall o : Heap.ref, Heap.object h' o = Heap.object h o) /\
  (forall a : Heap.ref,
     (a < List.length (Heap.arrays h))%nat ->
     Heap.elements a h' = Heap.elements a h) /\
  fst r <> products /\
  Heap.contents (fst r) h' = filtered (Heap.contents products h) f /\
  fst c = categories (Heap.contents products h).
Proof.
  intros r c h'. subst h' c r. rewrite filtered_run.
  unfold Heap.categories. cbn [fst snd].
  assert (Hold : forall a : Heap.ref,
            (a < List.length (Heap.arrays h))%nat ->
            forall x, nth a (Heap.arrays h ++ [x]) [] = nth a (Heap.arrays h) []).
  { intros a Ha x. now apply app_nth1. }
  unfold Heap.contents, Heap.elements. cbn [Heap.arrays Heap.object].
  repeat split.
  - now apply Hold.
  - now rewrite Hold.
  - intros a Ha. now apply Hold.
  - lia.
  - rewrite nth_middle. unfold filtered.
    rewrite (sort_map (Heap.object h) byRatingDesc).
    now rewrite (filter_map_pre (Heap.object h) (keep f)).
  - now rewrite Hold.
Qed.

Lemma seed_not_mutated_seedHeap :
  let r := Heap.filtered 0%nat hidratante4 seedHeap in
  let c := Heap.categories 0%nat (snd r) in
  let h' := snd c in
  Heap.elements 0%nat h' = Heap.elements 0%nat seedHeap /\
  Heap.contents 0%nat h' = Heap.contents 0%nat seedHeap /\
  (forall o : Heap.ref, Heap.object h' o = Heap.object seedHeap o) /\
  (forall a : Heap.ref,
     (a < List.length (Heap.arrays seedHeap))%nat ->
     Heap.elements a h' = Heap.elements a seedHeap) /\
  fst r <> 0%nat /\
  Heap.contents (fst r) h' = filtered (Heap.contents 0%nat seedHeap) hidratante4 /\
  fst c = categories (Heap.contents 0%nat seedHeap).
Proof.
  apply (seed_not_mutated seedHeap 0%nat hidratante4).
  simpl. lia.
Defined.

(** ** The debounce *)

Section DebounceFacts.
Import Debounce.

Lemma tick_idle (s : state) :
  Idle s ->
  Idle (tick s) /\ query (tick s) = query s /\
  debouncedQuery (tick s) = debouncedQuery s.
Proof.
  unfold Idle. destruct s as [q dq ts nh cl]. simpl. intros ->.
  repeat split.
Qed.

Lemma tick_wait (s : state) (r : nat) :
  Pending s (S (S r)) ->
  Pending (tick s) (S r) /\ query (tick s) = query s /\
  debouncedQuery (tick s) = debouncedQuery s.
Proof.
  unfold Pending. destruct s as [q dq ts nh cl]. simpl.
  intros (h & -> & ->). unfold tick. simpl.
  repeat split. exists h. split; reflexivity.
Qed.

Lemma tick_fire (s : state) :
  Pending s 1 ->
  Idle (tick s) /\ query (tick s) = query s /\
  debouncedQuery (tick s) = query s.
Proof.
  unfold Pending, Idle. destruct s as [q dq ts nh cl]. simpl.
  intros (h & -> & ->). unfold tick. simpl.
  repeat split.
Qed.

Lemma setQuery_same (s : state) : setQuery (query s) s = s.
Proof.
  unfold setQuery. now rewrite String.eqb_refl.
Qed.

Lemma setQuery_changed (s : state) (v : string) :
  v <> query s ->
  Idle s \/ (exists r, Pending s r) ->
  timers (setQuery v s) = [mkTimer (nextHandle s) delay v] /\
  Pending (setQuery v s) delay /\
  query (setQuery v s) = v /\
  debouncedQuery (setQuery v s) = debouncedQuery s.
Proof.
  intros Hv Hs. unfold setQuery.
  apply String.eqb_neq in Hv. rewrite Hv.
  assert (E : timers (runCleanup
                (mkState v (debouncedQuery s) (timers s) (nextHandle s) (cleanup s)))
              = []).
  { unfold runCleanup, clearTimeout. cbn [cleanup timers].
    destruct Hs as [Hidle | (r & h & Ht & Hc)].
    - unfold Idle in Hidle. rewrite Hidle. now destruct (cleanup s).
    - rewrite Hc, Ht. cbn. now rewrite Nat.eqb_refl. }
  unfold runEffect, setTimeout, Pending.
  cbn [timers query debouncedQuery nextHandle cleanup].
  rewrite E. cbn [app].
  assert (Q : forall x, query (runCleanup x) = query x)
    by (intros x; unfold runCleanup, clearTimeout; now destruct (cleanup x)).
  assert (D : forall x, debouncedQuery (runCleanup x) = debouncedQuery x)
    by (intros x; unfold runCleanup, clearTimeout; now destruct (cleanup x)).
  assert (N : forall x, nextHandle (runCleanup x) = nextHandle x)
    by (intros x; unfold runCleanup, clearTimeout; now destruct (cleanup x)).
  rewrite Q, D, N. cbn [query debouncedQuery nextHandle].
  repeat split. exists (nextHandle s). split; reflexivity.
Qed.

Lemma step_inv (s : state) (qt : string * nat) (e : event) :
  Inv s qt ->
  Inv (step s e) (quietStep qt e) /\
  (debouncedQuery (step s e) <> debouncedQuery s ->
   e = Tick /\ debouncedQuery (step s e) = query s /\
   (delay <= snd (quietStep qt e))%nat).
Proof.
  intros [Hq Hs]. destruct e as [v|]; cbn [step quietStep].
  - rewrite Hq. destruct (String.eqb_spec v (query s)) as [->|Hv].
    + rewrite setQuery_same. split; [split; assumption | congruence].
    + destruct (setQuery_changed s v Hv) as (_ & HP & HQ & HD).
      { destruct Hs as [Hi | (r & _ & HP & _)]; [now left | right; now exists r]. }
      split; [|congruence].
      split; [now rewrite HQ|]. right. exists delay.
      cbn [snd]. split; [unfold delay; lia | split; [exact HP | lia]].
  - destruct Hs as [Hi | (r & Hr & HP & Ht)].
    + destruct (tick_idle s Hi) as (Hi' & HQ & HD).
      split; [|congruence]. split; [now rewrite HQ | now left].
    + destruct r as [|[|r]]; [lia | |].
      * destruct (tick_fire s HP) as (Hi' & HQ & HD).
        split; [split; [now rewrite HQ | now left]|].
        intros _. split; [reflexivity | split; [exact HD | cbn [snd]; lia]].
      * destruct (tick_wait s r HP) as (HP' & HQ & HD).
        split; [|congruence]. split; [now rewrite HQ|].
        right. exists (S r). cbn [snd]. split; [lia | split; [exact HP' | lia]].
Qed.

Lemma mount_inv : Inv mount ("", 0%nat).
Proof.
  split; [reflexivity|]. right. exists delay.
  split; [unfold delay; lia | split; [|reflexivity]].
  exists 0%nat. split; reflexivity.
Qed.

Lemma exec_inv (evs : list event) :
  Inv (exec mount evs) (fold_left quietStep evs ("", 0%nat)).
Proof.
  induction evs as [|e evs IH] using rev_ind.
  - apply mount_inv.
  - unfold exec. rewrite !fold_left_app. cbn [fold_left].
    now apply step_inv.
Qed.

Lemma exec_ready (evs : list event) : Ready (exec mount evs).
Proof.
  destruct (exec_inv evs) as [_ [Hi | (r & Hr & HP & _)]].
  - now left.
  - right. now exists r.
Qed.

Lemma ticks_idle (d : nat) (s : state) :
  Idle s ->
  debouncedQuery (exec s (ticks d)) = debouncedQuery s /\
  query (exec s (ticks d)) = query s.
Proof.
  revert s. induction d as [|d IH]; intros s Hi; [split; reflexivity|].
  destruct (tick_idle s Hi) as (Hi' & HQ & HD).
  destruct (IH (tick s) Hi') as [E1 E2].
  cbn. unfold exec, ticks in E1, E2. rewrite E1, E2. now split.
Qed.

Lemma ticks_short (d : nat) (s : state) (r : nat) :
  Pending s r -> (d < r)%nat ->
  Pending (exec s (ticks d)) (r - d) /\
  query (exec s (ticks d)) = query s /\
  debouncedQuery (exec s (ticks d)) = debouncedQuery s /\
  Forall (fun x => debouncedQuery x = debouncedQuery s) (trace s (ticks d)).
Proof.
  revert s r. induction d as [|d IH]; intros s r HP Hd.
  - rewrite Nat.sub_0_r. repeat split; [exact HP | constructor].
  - destruct r as [|[|r]]; [lia | lia |].
    destruct (tick_wait s r HP) as (HP' & HQ & HD).
    destruct (IH (tick s) (S r) HP') as (HP'' & HQ' & HD' & HF); [lia|].
    cbn [ticks repeat exec fold_left trace step].
    fold (ticks d). fold (exec (tick s) (ticks d)).
    replace (S (S r) - S d)%nat with (S r - d)%nat by lia.
    repeat split; [exact HP'' | congruence | congruence |].
    constructor; [exact HD|].
    eapply Forall_impl; [|exact HF]. cbv beta. intros x Hx. congruence.
Qed.

Lemma ticks_any (d : nat) (s : state) :
  Ready s ->
  Forall (fun x => debouncedQuery x = debouncedQuery s \/
                   debouncedQuery x = query s)
         (trace s (ticks d)).
Proof.
  revert s. induction d as [|d IH]; intros s Hs; [constructor|].
  cbn [ticks repeat trace step]. fold (ticks d).
  assert (T : Ready (tick s) /\ query (tick s) = query s /\
              (debouncedQuery (tick s) = debouncedQuery s \/
               debouncedQuery (tick s) = query s)).
  { destruct Hs as [Hi | (r & Hr & HP)].
    - destruct (tick_idle s Hi) as (Hi' & HQ & HD).
      repeat split; [now left | exact HQ | now left].
    - destruct r as [|[|r]]; [lia | |].
      + destruct (tick_fire s HP) as (Hi' & HQ & HD).
        repeat split; [now left | exact HQ | now right].
      + destruct (tick_wait s r HP) as (HP' & HQ & HD).
        repeat split; [|exact HQ | now left].
        right. exists (S r). split; [lia | exact HP']. }
  destruct T as (HR & HQ & HD).
  constructor; [exact HD|].
  eapply Forall_impl; [|exact (IH (tick s) HR)]. cbv beta.
  intros x [Hx|Hx]; rewrite Hx; [exact HD | right; exact HQ].
Qed.

Lemma ticks_long (d : nat) (s : state) (r : nat) :
  Pending s r -> (0 < r)%nat -> (r <= d)%nat ->
  debouncedQuery (exec s (ticks d)) = query s.
Proof.
  revert s r. induction d as [|d IH]; intros s r HP Hr Hd; [lia|].
  cbn [ticks repeat exec fold_left step].
  fold (ticks d). fold (exec (tick s) (ticks d)).
  destruct r as [|[|r]]; [lia | |].
  - destruct (tick_fire s HP) as (Hi & HQ & HD).
    destruct (ticks_idle d (tick s) Hi) as [E _]. congruence.
  - destruct (tick_wait s r HP) as (HP' & HQ & HD).
    rewrite (IH (tick s) (S r) HP'); [exact HQ | lia | lia].
Qed.

Lemma exec_app (s : state) (l1 l2 : list event) :
  exec s (l1 ++ l2) = exec (exec s l1) l2.
Proof. apply fold_left_app. Qed.

Lemma exec_cons (s : state) (e : event) (l : list event) :
  exec s (e :: l) = exec (step s e) l.
Proof. reflexivity. Qed.

Lemma trace_app (s : state) (l1 l2 : list event) :
  trace s (l1 ++ l2) = trace s l1 ++ trace (exec s l1) l2.
Proof.
  revert s. induction l1 as [|e l1 IH]; intros s; [reflexivity|].
  cbn [app trace exec fold_left]. now rewrite IH.
Qed.

Lemma ticks_end (d : nat) (s : state) :
  Ready s ->
  query (exec s (ticks d)) = query s /\
  (debouncedQuery (exec s (ticks d)) = debouncedQuery s \/
   debouncedQuery (exec s (ticks d)) = query s).
Proof.
  revert s. induction d as [|d IH]; intros s Hs; [split; [reflexivity | now left]|].
  cbn [ticks repeat exec fold_left step].
  fold (ticks d). fold (exec (tick s) (ticks d)).
  assert (T : Ready (tick s) /\ query (tick s) = query s /\
              (debouncedQuery (tick s) = debouncedQuery s \/
               debouncedQuery (tick s) = query s)).
  { destruct Hs as [Hi | (r & Hr & HP)].
    - destruct (tick_idle s Hi) as (Hi' & HQ & HD).
      split; [now left | split; [exact HQ | now left]].
    - destruct r as [|[|r]]; [lia | |].
      + destruct (tick_fire s HP) as (Hi' & HQ & HD).
        split; [now left | split; [exact HQ | now right]].
      + destruct (tick_wait s r HP) as (HP' & HQ & HD).
        split; [|split; [exact HQ | now left]].
        right. exists (S r). split; [lia | exact HP']. }
  destruct T as (HR & HQ & HD).
  destruct (IH (tick s) HR) as [EQ ED].
  split; [congruence|].
  destruct ED as [ED|ED]; rewrite ED; [exact HD | right; exact HQ].
Qed.

Lemma typingABC_applied (d0 d1 d2 d3 : nat) :
  (d1 < delay)%nat -> (d2 < delay)%nat ->
  Forall (fun s => debouncedQuery s = "" \/ debouncedQuery s = "abc")
         (trace mount (typingABC d0 d1 d2 d3)) /\
  ((delay <= d3)%nat ->
   debouncedQuery (exec mount (typingABC d0 d1 d2 d3)) = "abc").
Proof.
  intros H1 H2. unfold typingABC.
  (* the first render, and the time before the first edit *)
  pose proof (exec_ready (ticks d0)) as R1.
  destruct (ticks_end d0 mount (exec_ready [])) as [Q1 D1].
  pose proof (ticks_any d0 mount (exec_ready [])) as F0.
  change (exec mount []) with mount in *.
  change (query mount) with "" in *. change (debouncedQuery mount) with "" in *.
  assert (D1' : debouncedQuery (exec mount (ticks d0)) = "") by now destruct D1.
  clear D1. set (s1 := exec mount (ticks d0)) in *.
  (* the edit to [a] and the wait of [d1] *)
  destruct (setQuery_changed s1 "a") as (_ & P2 & Q2 & D2).
  { rewrite Q1. discriminate. }
  { destruct R1 as [Hi | (r & _ & HP)]; [now left | right; now exists r]. }
  set (s2 := setQuery "a" s1) in *.
  destruct (ticks_short d1 s2 delay P2 H1) as (P3 & Q3 & D3 & F2).
  set (s3 := exec s2 (ticks d1)) in *.
  (* the edit to [ab] and the wait of [d2] *)
  destruct (setQuery_changed s3 "ab") as (_ & P4 & Q4 & D4).
  { rewrite Q3, Q2. discriminate. }
  { right. now exists (delay - d1)%nat. }
  set (s4 := setQuery "ab" s3) in *.
  destruct (ticks_short d2 s4 delay P4 H2) as (P5 & Q5 & D5 & F4).
  set (s5 := exec s4 (ticks d2)) in *.
  (* the edit to [abc] and what follows *)
  destruct (setQuery_changed s5 "abc") as (_ & P6 & Q6 & D6).
  { rewrite Q5, Q4. discriminate. }
  { right. now exists (delay - d2)%nat. }
  set (s6 := setQuery "abc" s5) in *.
  assert (R6 : Ready s6) by (right; exists delay; split; [unfold delay; lia | exact P6]).
  pose proof (ticks_any d3 s6 R6) as F6.
  assert (E2 : debouncedQuery s2 = "") by congruence.
  assert (E4 : debouncedQuery s4 = "") by congruence.
  assert (E6 : debouncedQuery s6 = "") by congruence.
  split.
  - rewrite trace_app. fold s1. cbn [trace step]. fold s2.
    rewrite trace_app. fold s3. cbn [trace step]. fold s4.
    rewrite trace_app. fold s5. cbn [trace step]. fold s6.
    apply Forall_app. split.
    { eapply Forall_impl; [|exact F0]. cbv beta. intros x [Hx|Hx]; now left. }
    constructor; [now left|].
    apply Forall_app. split.
    { eapply Forall_impl; [|exact F2]. cbv beta. intros x Hx. left. congruence. }
    constructor; [now left|].
    apply Forall_app. split.
    { eapply Forall_impl; [|exact F4]. cbv beta. intros x Hx. left. congruence. }
    constructor; [now left|].
    eapply Forall_impl; [|exact F6]. cbv beta.
    intros x [Hx|Hx]; [left | right]; congruence.
  - intros H3.
    rewrite exec_app. fold s1. cbn [exec fold_left step]. fold s2.
    fold (exec s2 (ticks d1 ++ Edit "ab" :: ticks d2 ++ Edit "abc" :: ticks d3)).
    rewrite exec_app. fold s3. cbn [exec fold_left step]. fold s4.
    fold (exec s4 (ticks d2 ++ Edit "abc" :: ticks d3)).
    rewrite exec_app. fold s5. cbn [exec fold_left step]. fold s6.
    fold (exec s6 (ticks d3)).
    rewrite (ticks_long d3 s6 delay P6); [exact Q6 | unfold delay; lia | exact H3].
Qed.

(** C8. From the first render and through any sequence of edits and
    elapsed milliseconds: the applied query changes only on the passing of
    time, to the present query, once 250 ms have passed since the query last
    changed; an edit that changes the query leaves its own timer as the only
    one that is set, the one that was pending being cleared; 250 ms after
    such an edit without another one the edited value is applied; and
    typing [a], [ab], [abc] less than 250 ms apart never applies anything
    but the initial empty query and [abc]. *)
Theorem debounce_spec :
  (forall (evs : list event) (e : event),
     debouncedQuery (step (exec mount evs) e) <> debouncedQuery (exec mount evs) ->
     e = Tick /\
     debouncedQuery (step (exec mount evs) e) = query (exec mount evs) /\
     (250 <= quietTime (evs ++ [e]))%nat) /\
  (forall (evs : list event) (v : string),
     v <> query (exec mount evs) ->
     timers (setQuery v (exec mount evs)) =
     [mkTimer (nextHandle (exec mount evs)) 250 v]) /\
  (forall (evs : list event) (v : string),
     v <> query (exec mount evs) ->
     debouncedQuery (exec mount (evs ++ Edit v :: ticks 250)) = v) /\
  (forall d0 d1 d2 d3 : nat,
     (d1 < 250)%nat -> (d2 < 250)%nat ->
     Forall (fun s => debouncedQuery s = "" \/ debouncedQuery s = "abc")
            (trace mount (typingABC d0 d1 d2 d3)) /\
     ((250 <= d3)%nat ->
      debouncedQuery (exec mount (typingABC d0 d1 d2 d3)) = "abc")).
Proof.
  change 250%nat with delay.
  split; [|split; [|split]].
  - intros evs e H.
    destruct (step_inv _ _ e (exec_inv evs)) as [_ S]. specialize (S H).
    unfold quietTime. rewrite fold_left_app. exact S.
  - intros evs v Hv.
    apply setQuery_changed; [exact Hv|].
    destruct (exec_ready evs) as [Hi | (r & _ & HP)]; [now left | right; now exists r].
  - intros evs v Hv. rewrite exec_app, exec_cons. cbn [step].
    destruct (setQuery_changed (exec mount evs) v Hv) as (_ & HP & HQ & _).
    { destruct (exec_ready evs) as [Hi | (r & _ & HP)]; [now left | right; now exists r]. }
    rewrite (ticks_long delay _ delay HP); [exact HQ | unfold delay; lia | lia].
  - apply typingABC_applied.
Qed.

Lemma debounce_typing_abc :
  Forall (fun s => debouncedQuery s = "" \/ debouncedQuery s = "abc")
         (trace mount (typingABC 40 100 200 300)) /\
  debouncedQuery (exec mount (typingABC 40 100 200 300)) = "abc".
Proof.
  destruct debounce_spec as (_ & _ & _ & Habc).
  destruct (Habc 40%nat 100%nat 200%nat 300%nat) as [Hall Hend]; [lia | lia |].
  split; [exact Hall | apply Hend; lia].
Defined.

End DebounceFacts.

(** ** Bounds of the average rating *)

Lemma averageRating_cons (r : Review.t) (rs : list Review.t) :
  averageRating (r :: rs) ==
  sumOfRatings (r :: rs) / inject_Z (Z.of_nat (List.length (r :: rs))).
Proof.
  unfold averageRating. cbn [List.length Nat.eqb]. cbv zeta.
  rewrite fold_left_ratings. now rewrite Qplus_0_l.
Qed.

Lemma inject_Z_succ (n : nat) :
  inject_Z (Z.of_nat (S n)) == inject_Z (Z.of_nat n) + 1.
Proof.
  rewrite Nat2Z.inj_succ. unfold Z.succ. now rewrite inject_Z_plus.
Qed.

Lemma sumOfRatings_bounds (lo hi : Q) (rs : list Review.t) :
  Forall (fun r => lo <= Review.rating r /\ Review.rating r <= hi) rs ->
  inject_Z (Z.of_nat (List.length rs)) * lo <= sumOfRatings rs /\
  sumOfRatings rs <= inject_Z (Z.of_nat (List.length rs)) * hi.
Proof.
  induction 1 as [|r rs [Hlo Hhi] _ [IHlo IHhi]].
  - unfold sumOfRatings. cbn [List.length map fold_right].
    change (inject_Z (Z.of_nat 0)) with 0. split; lra.
  - cbn [List.length]. rewrite inject_Z_succ.
    set (n := inject_Z (Z.of_nat (List.length rs))) in *.
    assert (E : sumOfRatings (r :: rs) == Review.rating r + sumOfRatings rs)
      by reflexivity.
    rewrite E. split.
    + setoid_replace ((n + 1) * lo) with (n * lo + lo) by ring. lra.
    + setoid_replace ((n + 1) * hi) with (n * hi + hi) by ring. lra.
Qed.

Lemma averageRating_between (lo hi : Q) (r : Review.t) (rs : list Review.t) :
  Forall (fun x => lo <= Review.rating x /\ Review.rating x <= hi) (r :: rs) ->
  lo <= averageRating (r :: rs) /\ averageRating (r :: rs) <= hi.
Proof.
  intros H.
  destruct (sumOfRatings_bounds lo hi (r :: rs) H) as [Hlo Hhi].
  rewrite averageRating_cons.
  set (n := inject_Z (Z.of_nat (List.length (r :: rs)))) in *.
  assert (Hn : 0 < n).
  { subst n. unfold Qlt. cbn [List.length]. simpl. lia. }
  split.
  - apply Qle_shift_div_l; [exact Hn|]. lra.
  - apply Qle_shift_div_r; [exact Hn|]. lra.
Qed.

(** X4. The average of a non-empty list of at most a million reviews lies
    between any two integers, of magnitude at most a million, between which
    every rating of the list lies. *)
Theorem averageRating_bounds (lo hi : Z) (r : Review.t) (rs : list Review.t)
  (Hlo : (-1000000 <= lo)%Z) (Hhi : (hi <= 1000000)%Z)
  (Hn : (Z.of_nat (List.length (r :: rs)) <= 1000000)%Z)
  (H : Forall (fun x => inject_Z lo <= Review.rating x /\
                        Review.rating x <= inject_Z hi) (r :: rs)) :
  inject_Z lo <= averageRating (r :: rs) /\
  averageRating (r :: rs) <= inject_Z hi.
Proof.
  exact (averageRating_between (inject_Z lo) (inject_Z hi) r rs H).
Qed.

Lemma averageRating_bounds_seed :
  1 <= averageRating (Product.reviews mock_p3) /\
  averageRating (Product.reviews mock_p3) <= 5.
Proof.
  apply (averageRating_bounds 1 5
           (Review.mk "João" 4 "Lava bem e não repuxa.")
           [Review.mk "Vivi" 2 "Achei um pouco agressivo para pele sensível."]).
  - lia.
  - lia.
  - simpl. lia.
  - repeat constructor; vm_compute; discriminate.
Defined.

(** ** Filtering and sorting commute *)

Lemma insert_head (x : Product.t) (l : list Product.t) :
  Forall (fun z => avg z <= avg x) l ->
  JS.insert byRatingDesc x l = x :: l.
Proof.
  intros H. destruct H as [|y l Hy _]; [reflexivity|].
  cbn [JS.insert]. destruct (byRatingDesc x y ?= 0) eqn:E; try reflexivity.
  apply byRatingDesc_Gt in E. lra.
Qed.

Lemma filter_insert (f : Product.t -> bool) (x : Product.t) (l : list Product.t) :
  ratingNonIncreasing l ->
  List.filter f (JS.insert byRatingDesc x l) =
  if f x then JS.insert byRatingDesc x (List.filter f l) else List.filter f l.
Proof.
  unfold ratingNonIncreasing.
  induction 1 as [|y l Hs IH Hy].
  - cbn. now destruct (f x).
  - assert (Below : avg y <= avg x ->
              List.filter f (x :: y :: l) =
              if f x then JS.insert byRatingDesc x (List.filter f (y :: l))
              else List.filter f (y :: l)).
    { intros Hxy.
      change (List.filter f (x :: y :: l))
        with (if f x then x :: List.filter f (y :: l) else List.filter f (y :: l)).
      destruct (f x); [|reflexivity].
      symmetry. apply insert_head.
      apply (incl_Forall (incl_filter f (y :: l))).
      constructor; [exact Hxy|].
      eapply Forall_impl; [|exact Hy]. cbv beta. intros z Hz. lra. }
    cbn [JS.insert]. destruct (byRatingDesc x y ?= 0) eqn:E.
    + apply Below. apply byRatingDesc_not_Gt. congruence.
    + apply Below. apply byRatingDesc_not_Gt. congruence.
    + cbn [List.filter]. rewrite IH.
      destruct (f y), (f x); cbn [JS.insert]; rewrite ?E; reflexivity.
Qed.

Lemma filter_sort (f : Product.t -> bool) (l : list Product.t) :
  List.filter f (JS.sort byRatingDesc l) = JS.sort byRatingDesc (List.filter f l).
Proof.
  induction l as [|x l IH]; [reflexivity|].
  cbn [JS.sort List.filter].
  rewrite filter_insert by apply sort_sorted.
  rewrite IH. now destruct (f x).
Qed.

Lemma filtered_of_sorted (products : list Product.t) (f : Filters) :
  filtered products f = List.filter (keep f) (JS.sort byRatingDesc products).
Proof.
  unfold filtered. symmetry. apply filter_sort.
Qed.


(** ** Narrowing the filters *)

Lemma Qle_bool_trans_true (a b c : Q) :
  a <= b -> Qle_bool b c = true -> Qle_bool a c = true.
Proof.
  rewrite !Qle_bool_iff. intros. lra.
Qed.

(** X6. Raising the minimum rating only removes products: the list for the
    higher threshold is the list for the lower one without the products
    that average below the higher threshold, in the same order. *)
Theorem filtered_raise_minRating (products : list Product.t)
  (query selected : string) (m1 m2 : Q) (H : m1 <= m2) :
  filtered products (mkFilters query selected m2) =
  List.filter (matchesRating m2) (filtered products (mkFilters query selected m1)).
Proof.
  rewrite !filtered_of_sorted, filter_filter_and.
  apply filter_ext. intros p. unfold keep.
  cbn [debouncedQuery category minRating].
  destruct (matchesRating m2 p) eqn:E2; [|now rewrite andb_false_r].
  unfold matchesRating in *. rewrite (Qle_bool_trans_true m1 m2 _ H E2).
  reflexivity.
Qed.

Lemma filtered_raise_minRating_seed :
  filtered MOCK_PRODUCTS (mkFilters "" todas 4) =
  List.filter (matchesRating 4) (filtered MOCK_PRODUCTS (mkFilters "" todas 0)).
Proof.
  apply (filtered_raise_minRating MOCK_PRODUCTS "" todas 0 4).
  vm_compute. discriminate.
Defined.

Lemma append_assoc (a b c : string) :
  ((a ++ b) ++ c)%string = (a ++ (b ++ c))%string.
Proof.
  induction a as [|x a IH]; [reflexivity|]. simpl. now rewrite IH.
Qed.

Lemma Substring_trans (a b c : string) :
  Substring a b -> Substring b c -> Substring a c.
Proof.
  intros (p1 & s1 & ->) (p2 & s2 & ->).
  exists (p2 ++ p1)%string, (s1 ++ s2)%string.
  rewrite !append_assoc. reflexivity.
Qed.

Lemma Substring_empty (q : string) : Substring q "" -> q = "".
Proof.
  intros (pre & post & H). destruct pre; [|discriminate].
  destruct q; [reflexivity | discriminate].
Qed.

Lemma matchesText_weaken (q q' : string) (p : Product.t) :
  Substring q q' -> matchesText q' p = true -> matchesText q p = true.
Proof.
  intros Hq. rewrite !matchesText_iff.
  intros [-> | [H | [H | [H | H]]]].
  - left. now apply Substring_empty.
  - right. left. eapply Substring_trans; eassumption.
  - right. right. left. eapply Substring_trans; eassumption.
  - do 3 right. left. eapply Substring_trans; eassumption.
  - do 4 right. eapply Exists_impl; [|exact H]. cbv beta.
    intros ing Hing. eapply Substring_trans; eassumption.
Qed.

(** X7. Refining the query only removes products: when the normalized old
    query occurs in the normalized new one (typing more characters at either
    end), the list for the new query is the list for the old one without the
    products that the new query does not match, in the same order. *)
Theorem filtered_refine_query (products : list Product.t)
  (query query' selected : string) (m : Q)
  (H : Substring (normalized query) (normalized query')) :
  filtered products (mkFilters query' selected m) =
  List.filter (matchesText (normalized query'))
              (filtered products (mkFilters query selected m)).
Proof.
  rewrite !filtered_of_sorted, filter_filter_and.
  apply filter_ext. intros p. unfold keep.
  cbn [debouncedQuery category minRating]. fold (normalized query) (normalized query').
  destruct (matchesText (normalized query') p) eqn:E; [|reflexivity].
  rewrite (matchesText_weaken _ _ p H E). reflexivity.
Qed.

Lemma filtered_refine_query_seed :
  filtered MOCK_PRODUCTS (mkFilters "Glyc" todas 0) =
  List.filter (matchesText (normalized "Glyc"))
              (filtered MOCK_PRODUCTS (mkFilters " gly" todas 0)).
Proof.
  apply (filtered_refine_query MOCK_PRODUCTS " gly" "Glyc" todas 0).
  exists "", "c". reflexivity.
Defined.

(** ** Normalizing the query *)

Lemma toLowerCase_app (a b : string) :
  JS.toLowerCase (a ++ b) = (JS.toLowerCase a ++ JS.toLowerCase b)%string.
Proof.
  induction a as [|c a IH]; [reflexivity|]. simpl. now rewrite IH.
Qed.

Lemma trimStart_suffix (s : string) :
  exists pre : string, s = (pre ++ JS.trimStart s)%string.
Proof.
  induction s as [|c s [pre IH]].
  - now exists "".
  - simpl. destruct (JS.isWhiteSpace c).
    + exists (String c pre). simpl. now rewrite <- IH.
    + now exists "".
Qed.

Lemma trimEnd_prefix (s : string) :
  exists post : string, s = (JS.trimEnd s ++ post)%string.
Proof.
  induction s as [|c s [post IH]].
  - now exists "".
  - cbn [JS.trimEnd]. destruct (JS.trimEnd s) as [|d r] eqn:E.
    + destruct (JS.isWhiteSpace c).
      * now exists (String c s).
      * exists s. reflexivity.
    + exists post. simpl. now rewrite IH at 1.
Qed.

Lemma Substring_trim (s : string) : Substring (JS.trim s) s.
Proof.
  unfold JS.trim.
  destruct (trimStart_suffix s) as [pre Hpre].
  destruct (trimEnd_prefix (JS.trimStart s)) as [post Hpost].
  exists pre, post. now rewrite <- Hpost.
Qed.

Lemma Substring_toLowerCase (a b : string) :
  Substring a b -> Substring (JS.toLowerCase a) (JS.toLowerCase b).
Proof.
  intros (pre & post & ->).
  exists (JS.toLowerCase pre), (JS.toLowerCase post).
  now rewrite !toLowerCase_app.
Qed.

Lemma Substring_normalized (s : string) :
  Substring (normalized s) (JS.toLowerCase s).
Proof.
  apply Substring_toLowerCase, Substring_trim.
Qed.

Lemma filtered_In (products : list Product.t) (f : Filters) (p : Product.t) :
  In p (filtered products f) <-> In p products /\ keep f p = true.
Proof.
  rewrite <- filter_In. unfold filtered.
  split; apply Permutation_in; [|symmetry]; apply sort_perm.
Qed.

(** X8. A product is found by its own texts: with the sentinel category
    and a threshold its average reaches, the list derived for a query that
    is the name, the brand or the category of a product of the catalog, or
    the name of one of its ingredients, as they are written, contains that
    product. *)
Theorem search_by_own_text (products : list Product.t) (p : Product.t) (m : Q)
  (Hin : In p products) (Hrate : matchesRating m p = true) :
  In p (filtered products (mkFilters (Product.name p) todas m)) /\
  In p (filtered products (mkFilters (Product.brand p) todas m)) /\
  In p (filtered products (mkFilters (Product.category p) todas m)) /\
  forall ing : Ingredient.t,
    In ing (Product.inci p) ->
    In p (filtered products (mkFilters (Ingredient.name ing) todas m)).
Proof.
  assert (K : forall query : string,
            matchesText (normalized query) p = true ->
            In p (filtered products (mkFilters query todas m))).
  { intros query Ht. apply filtered_In. split; [exact Hin|].
    unfold keep. cbn [debouncedQuery category minRating].
    fold (normalized query). rewrite Ht, Hrate. reflexivity. }
  repeat split.
  - apply K, matchesText_iff. right. left. apply Substring_normalized.
  - apply K, matchesText_iff. right. right. left. apply Substring_normalized.
  - apply K, matchesText_iff. do 3 right. left. apply Substring_normalized.
  - intros ing Hing. apply K, matchesText_iff. do 4 right.
    apply Exists_exists. exists ing. split; [exact Hing|].
    apply Substring_normalized.
Qed.

Lemma search_by_own_text_seed :
  In mock_p2 (filtered MOCK_PRODUCTS (mkFilters "UV Defense Pro SPF 50" todas 3)) /\
  In mock_p2 (filtered MOCK_PRODUCTS (mkFilters "Solaris" todas 3)).
Proof.
  destruct (search_by_own_text MOCK_PRODUCTS mock_p2 3) as (Hn & Hb & _).
  - simpl. tauto.
  - reflexivity.
  - split; [exact Hn | exact Hb].
Defined.

Lemma lowerChar_upperChar (c : ascii) :
  JS.lowerChar (JS.upperChar c) = JS.lowerChar c.
Proof.
  destruct c as [[] [] [] [] [] [] [] []]; reflexivity.
Qed.

Lemma upperChar_idem (c : ascii) :
  JS.upperChar (JS.upperChar c) = JS.upperChar c.
Proof.
  destruct c as [[] [] [] [] [] [] [] []]; reflexivity.
Qed.

Lemma isWhiteSpace_upperChar (c : ascii) :
  JS.isWhiteSpace (JS.upperChar c) = JS.isWhiteSpace c.
Proof.
  destruct c as [[] [] [] [] [] [] [] []]; reflexivity.
Qed.

Lemma toLowerCase_toUpperCase (s : string) :
  JS.toLowerCase (JS.toUpperCase s) = JS.toLowerCase s.
Proof.
  induction s as [|c s IH]; [reflexivity|].
  simpl. now rewrite lowerChar_upperChar, IH.
Qed.

Lemma trimStart_toUpperCase (s : string) :
  JS.trimStart (JS.toUpperCase s) = JS.toUpperCase (JS.trimStart s).
Proof.
  induction s as [|c s IH]; [reflexivity|].
  simpl. rewrite isWhiteSpace_upperChar.
  now destruct (JS.isWhiteSpace c).
Qed.

Lemma trimEnd_toUpperCase (s : string) :
  JS.trimEnd (JS.toUpperCase s) = JS.toUpperCase (JS.trimEnd s).
Proof.
  induction s as [|c s IH]; [reflexivity|].
  cbn [JS.toUpperCase JS.trimEnd]. rewrite IH, isWhiteSpace_upperChar.
  destruct (JS.trimEnd s); [|reflexivity].
  cbn [JS.toUpperCase]. now destruct (JS.isWhiteSpace c).
Qed.

Lemma trimStart_blank (b : string) :
  JS.isBlank b = true -> JS.trimStart b = "".
Proof.
  induction b as [|c b IH]; [reflexivity|].
  simpl. intros H. apply andb_true_iff in H as [Hc Hb].
  rewrite Hc. now apply IH.
Qed.

Lemma trimEnd_blank (b : string) :
  JS.isBlank b = true -> JS.trimEnd b = "".
Proof.
  induction b as [|c b IH]; [reflexivity|].
  simpl. intros H. apply andb_true_iff in H as [Hc Hb].
  now rewrite (IH Hb), Hc.
Qed.

Lemma trimStart_app_blank (a s : string) :
  JS.isBlank a = true -> JS.trimStart (a ++ s) = JS.trimStart s.
Proof.
  induction a as [|c a IH]; [reflexivity|].
  simpl. intros H. apply andb_true_iff in H as [Hc Ha].
  rewrite Hc. now apply IH.
Qed.

Lemma trimEnd_app_blank (s b : string) :
  JS.isBlank b = true -> JS.trimEnd (s ++ b) = JS.trimEnd s.
Proof.
  intros Hb. induction s as [|c s IH].
  - now apply trimEnd_blank.
  - cbn [append JS.trimEnd]. now rewrite IH.
Qed.

Lemma trim_app_blank (s b : string) :
  JS.isBlank b = true -> JS.trim (s ++ b) = JS.trim s.
Proof.
  intros Hb. unfold JS.trim. induction s as [|c s IH].
  - cbn [append]. rewrite (trimStart_blank b Hb). reflexivity.
  - cbn [append JS.trimStart]. destruct (JS.isWhiteSpace c).
    + exact IH.
    + apply (trimEnd_app_blank (String c s) b Hb).
Qed.

Lemma normalized_padding (a s b : string) :
  JS.isBlank a = true -> JS.isBlank b = true ->
  normalized (a ++ JS.toUpperCase s ++ b) = normalized s.
Proof.
  intros Ha Hb. unfold normalized, JS.trim.
  rewrite (trimStart_app_blank a _ Ha).
  fold (JS.trim (JS.toUpperCase s ++ b)). rewrite (trim_app_blank _ b Hb).
  unfold JS.trim.
  now rewrite trimStart_toUpperCase, trimEnd_toUpperCase, toLowerCase_toUpperCase.
Qed.

(** X9. The derived list does not depend on the letter case of the query
    and of the selected category, nor on white space around the query: for
    ASCII texts, a query in capitals and padded with white space, and a
    category in capitals, give the list of the plain query and category. *)
Theorem filtered_case_and_padding (products : list Product.t)
  (query selected a b : string) (m : Q)
  (Hq : JS.isAscii query = true) (Hc : JS.isAscii selected = true)
  (Ha : JS.isBlank a = true) (Hb : JS.isBlank b = true) :
  filtered products
    (mkFilters (a ++ JS.toUpperCase query ++ b) (JS.toUpperCase selected) m) =
  filtered products (mkFilters query selected m).
Proof.
  unfold filtered. f_equal. apply filter_ext. intros p. unfold keep.
  cbn [debouncedQuery category minRating].
  fold (normalized (a ++ JS.toUpperCase query ++ b)) (normalized query).
  now rewrite (normalized_padding a query b Ha Hb), toLowerCase_toUpperCase.
Qed.

Lemma filtered_case_and_padding_seed :
  filtered MOCK_PRODUCTS (mkFilters ("  " ++ JS.toUpperCase "creme" ++ " ")
                                    (JS.toUpperCase "hidratante") 4) =
  filtered MOCK_PRODUCTS (mkFilters "creme" "hidratante" 4).
Proof.
  apply (filtered_case_and_padding MOCK_PRODUCTS "creme" "hidratante" "  " " " 4);
    reflexivity.
Defined.

(** ** Capitalized labels *)

Lemma capitalize_cons (c : ascii) (s : string) :
  capitalize (String c s) = String (JS.upperChar c) s.
Proof. reflexivity. Qed.

(** X10. On an ASCII text, [capitalize] changes at most the case of the
    first character: the empty text stays empty, the length and everything
    after the first character are kept, a second application changes
    nothing, and the result is the same category as the text for the
    category predicate, which compares in lower case. *)
Theorem capitalize_spec (s : string) (H : JS.isAscii s = true) :
  capitalize "" = "" /\
  String.length (capitalize s) = String.length s /\
  JS.slice 1 (capitalize s) = JS.slice 1 s /\
  capitalize (capitalize s) = capitalize s /\
  JS.toLowerCase (capitalize s) = JS.toLowerCase s /\
  forall p : Product.t,
    matchesCat (JS.toLowerCase (capitalize s)) p =
    matchesCat (JS.toLowerCase s) p.
Proof.
  assert (L : JS.toLowerCase (capitalize s) = JS.toLowerCase s).
  { destruct s as [|c s]; [reflexivity|].
    rewrite capitalize_cons. simpl. now rewrite lowerChar_upperChar. }
  split; [reflexivity|].
  destruct s as [|c s].
  - repeat split. 
  - rewrite !capitalize_cons, upperChar_idem. repeat split.
    + rewrite <- capitalize_cons. exact L.
    + intros p. rewrite <- capitalize_cons. now rewrite L.
Qed.

Lemma capitalize_seed :
  capitalize "protetor solar" = "Protetor solar" /\
  JS.toLowerCase (capitalize "protetor solar") = "protetor solar".
Proof.
  destruct (capitalize_spec "protetor solar") as (_ & _ & _ & _ & L & _).
  - reflexivity.
  - split; [reflexivity | exact L].
Defined.

(** ** The stars of a rating *)

Lemma Rating_stars_clamped (value : Q) :
  Rating_stars value =
  repeat true (Z.to_nat (Z.max 0 (Z.min 5 (JS.Math_round value)))) ++
  repeat false (5 - Z.to_nat (Z.max 0 (Z.min 5 (JS.Math_round value)))).
Proof.
  unfold Rating_stars. cbv zeta.
  set (f := JS.Math_round value).
  assert (C : (f <= 0 \/ f = 1 \/ f = 2 \/ f = 3 \/ f = 4 \/ 5 <= f)%Z) by lia.
  destruct C as [C | [C | [C | [C | [C | C]]]]].
  - rewrite Z.min_r, Z.max_l by lia. cbn [map].
    rewrite !(proj2 (Z.ltb_ge _ _)) by lia. reflexivity.
  - rewrite C. reflexivity.
  - rewrite C. reflexivity.
  - rewrite C. reflexivity.
  - rewrite C. reflexivity.
  - rewrite Z.min_l, Z.max_r by lia. cbn [map].
    rewrite !(proj2 (Z.ltb_lt _ _)) by lia. reflexivity.
Qed.

Lemma filter_id_repeat (k n : nat) :
  List.length (List.filter (fun b : bool => b) (repeat true k ++ repeat false n)) = k.
Proof.
  induction k as [|k IH]; simpl.
  - induction n as [|n IHn]; [reflexivity | exact IHn].
  - now rewrite IH.
Qed.

Lemma filledStars_clamped (value : Q) :
  filledStars value = Z.to_nat (Z.max 0 (Z.min 5 (JS.Math_round value))).
Proof.
  unfold filledStars. rewrite Rating_stars_clamped. apply filter_id_repeat.
Qed.

(** X11. The [Rating] component always draws five stars, the full ones
    first: as many as the rounded value, but none for a value that rounds to
    zero or less and five for one that rounds to five or more. *)
Theorem Rating_stars_spec (value : Q) :
  List.length (Rating_stars value) = 5%nat /\
  (filledStars value <= 5)%nat /\
  Z.of_nat (filledStars value) = Z.max 0 (Z.min 5 (JS.Math_round value)) /\
  Rating_stars value =
  repeat true (filledStars value) ++ repeat false (5 - filledStars value).
Proof.
  rewrite filledStars_clamped. repeat split.
  - lia.
  - lia.
  - apply Rating_stars_clamped.
Qed.

Lemma Math_round_between (x : Q) (lo hi : Z) :
  inject_Z lo <= x -> x <= inject_Z hi ->
  (lo <= JS.Math_round x <= hi)%Z.
Proof.
  intros Hlo Hhi. unfold JS.Math_round. split.
  - rewrite <- (Qfloor_Z lo). apply Qfloor_resp_le. lra.
  - assert (U : inject_Z (Qfloor (x + (1 # 2))) <= x + (1 # 2))
      by apply Qfloor_le.
    assert (V : inject_Z (Qfloor (x + (1 # 2))) < inject_Z (hi + 1)).
    { rewrite inject_Z_plus. change (inject_Z 1) with 1. lra. }
    rewrite <- Zlt_Qlt in V. lia.
Qed.

(** X12. The stars of a product follow its reviews: without reviews no star
    is full, and with reviews that are all rated from 1 to 5 the number of
    full stars is from 1 to 5. *)
Theorem product_stars_range :
  filledStars (averageRating []) = 0%nat /\
  forall (r : Review.t) (rs : list Review.t),
    Forall (fun x => 1 <= Review.rating x /\ Review.rating x <= 5) (r :: rs) ->
    (1 <= filledStars (averageRating (r :: rs)) <= 5)%nat.
Proof.
  split; [reflexivity|].
  intros r rs H. rewrite filledStars_clamped.
  destruct (averageRating_between 1 5 r rs H) as [Hlo Hhi].
  pose proof (Math_round_between (averageRating (r :: rs)) 1 5 Hlo Hhi).
  lia.
Qed.

Lemma product_stars_seed :
  (1 <= filledStars (averageRating (Product.reviews mock_p3)) <= 5)%nat.
Proof.
  destruct product_stars_range as [_ H].
  apply (H (Review.mk "João" 4 "Lava bem e não repuxa.")
           [Review.mk "Vivi" 2 "Achei um pouco agressivo para pele sensível."]).
  repeat constructor; vm_compute; discriminate.
Defined.

(** ** Categories offered and categories found *)

Lemma categories_distinct (products : list Product.t) :
  categories products = todas :: distinct (map Product.category products).
Proof.
  unfold categories, JS.Set_from. rewrite Set_from_acc. cbn [app].
  f_equal. rewrite <- (filter_ext (fun _ => true)) by reflexivity.
  induction (distinct _) as [|y l IH]; [reflexivity|].
  simpl. now rewrite IH.
Qed.

(** X13. Every category the selector offers finds something: over a
    non-empty catalog whose products all reach the threshold, the list
    derived for an empty query and any entry of the category list holds a
    product, and apart from the sentinel that product is of the selected
    category. *)
Theorem offered_category_not_empty (products : list Product.t)
  (selected : string) (m : Q)
  (Hne : products <> [])
  (Hrate : Forall (fun p => matchesRating m p = true) products)
  (Hsel : In selected (categories products)) :
  exists p : Product.t,
    In p (filtered products (mkFilters "" selected m)) /\
    (selected = todas \/ Product.category p = selected).
Proof.
  rewrite categories_distinct in Hsel.
  rewrite Forall_forall in Hrate.
  assert (K : forall p, In p products ->
            matchesCat (JS.toLowerCase selected) p = true ->
            In p (filtered products (mkFilters "" selected m))).
  { intros p Hp Hc. apply filtered_In. split; [exact Hp|].
    unfold keep. cbn [debouncedQuery category minRating].
    rewrite Hc, (Hrate p Hp). reflexivity. }
  destruct Hsel as [<- | Hsel].
  - destruct products as [|p l]; [congruence|].
    exists p. split; [|now left].
    apply K; [now left | reflexivity].
  - apply distinct_In, in_map_iff in Hsel as (p & Hc & Hp).
    exists p. split; [|now right].
    apply K; [exact Hp|]. apply matchesCat_iff. right. now rewrite Hc.
Qed.

Lemma offered_category_seed :
  exists p : Product.t,
    In p (filtered MOCK_PRODUCTS (mkFilters "" "limpeza" 2)) /\
    ("limpeza" = todas \/ Product.category p = "limpeza").
Proof.
  apply (offered_category_not_empty MOCK_PRODUCTS "limpeza" 2).
  - discriminate.
  - repeat constructor.
  - vm_compute. tauto.
Defined.

(** X14. The category list repeats an entry exactly when a product of the
    catalog has the sentinel itself as its category: otherwise its entries
    are pairwise distinct. *)
Theorem categories_NoDup (products : list Product.t) :
  NoDup (categories products) <->
  Forall (fun p => Product.category p <> todas) products.
Proof.
  rewrite categories_distinct, Forall_forall. split.
  - intros H p Hp E. inversion H as [|x l Hnot _]; subst.
    apply Hnot, distinct_In, in_map_iff. now exists p.
  - intros H. constructor; [|apply distinct_NoDup].
    intros Hin. apply distinct_In, in_map_iff in Hin as (p & E & Hp).
    exact (H p Hp E).
Qed.

(** ** Opening the detail view from a card *)

Lemma same_id_same_product (l : list Product.t) (p p' : Product.t) :
  NoDup (map Product.id l) -> In p l -> In p' l ->
  Product.id p = Product.id p' -> p = p'.
Proof.
  induction l as [|x l IH]; [contradiction|].
  cbn [map]. intros Hnd Hp Hp' E. inversion Hnd as [|? ? Hnot Hnd']; subst.
  destruct Hp as [->|Hp], Hp' as [->|Hp'].
  - reflexivity.
  - exfalso. apply Hnot. rewrite E. now apply in_map.
  - exfalso. apply Hnot. rewrite <- E. now apply in_map.
  - now apply IH.
Qed.

(** X15. A click on a card always opens a detail view: for a product [p]
    of the derived list, setting the focus to its id resolves to a product
    of the catalog with that id, whatever the filters; it is [p] itself when
    the ids of the catalog are pairwise distinct. *)
Theorem card_click_opens (products : list Product.t) (f : Filters) (p : Product.t)
  (Hshown : In p (filtered products f)) :
  (exists p' : Product.t,
     focusedProduct products (Some (Product.id p)) = Some p' /\
     In p' products /\ Product.id p' = Product.id p) /\
  (NoDup (map Product.id products) ->
   focusedProduct products (Some (Product.id p)) = Some p).
Proof.
  apply filtered_In in Hshown as [Hin _].
  assert (E : exists p', focusedProduct products (Some (Product.id p)) = Some p' /\
                         In p' products /\ Product.id p' = Product.id p).
  { rewrite focusedProduct_find.
    destruct (List.find (idIs (Some (Product.id p))) products) as [p'|] eqn:F.
    - exists p'. apply find_some in F as [Hin' Hid].
      simpl in Hid. apply String.eqb_eq in Hid. repeat split; assumption.
    - apply (find_none _ _ F) in Hin. simpl in Hin.
      rewrite String.eqb_refl in Hin. discriminate. }
  split; [exact E|].
  intros Hnd. destruct E as (p' & -> & Hin' & Hid).
  f_equal. now apply (same_id_same_product products).
Qed.

Lemma card_click_seed :
  focusedProduct MOCK_PRODUCTS (Some (Product.id mock_p5)) = Some mock_p5.
Proof.
  destruct (card_click_opens MOCK_PRODUCTS hidratante4 mock_p5) as [_ H].
  - vm_compute. tauto.
  - apply H. vm_compute. repeat constructor; simpl; intuition discriminate.
Defined.

Lemma NoDup_map_filter {A B : Type} (g : A -> B) (f : A -> bool) (l : list A) :
  NoDup (map g l) -> NoDup (map g (List.filter f l)).
Proof.
  induction l as [|x l IH]; [intros; constructor|].
  cbn [map List.filter]. intros H. inversion H as [|? ? Hnot Hnd]; subst.
  destruct (f x); [|now apply IH].
  cbn [map]. constructor; [|now apply IH].
  intros Hin. apply Hnot. apply in_map_iff in Hin as (y & E & Hy).
  apply filter_In in Hy as [Hy _]. rewrite <- E. now apply in_map.
Qed.

(** X16. The cards are keyed by product id, and the keys stay distinct:
    when the ids of the catalog are pairwise distinct, so are the ids along
    the derived list. *)
Theorem filtered_ids_NoDup (products : list Product.t) (f : Filters)
  (H : NoDup (map Product.id products)) :
  NoDup (map Product.id (filtered products f)).
Proof.
  unfold filtered.
  apply (Permutation_NoDup (l := map Product.id (List.filter (keep f) products))).
  - apply Permutation_map, Permutation_sym, sort_perm.
  - now apply NoDup_map_filter.
Qed.

Lemma filtered_ids_NoDup_seed :
  NoDup (map Product.id (filtered MOCK_PRODUCTS hidratante4)).
Proof.
  apply (filtered_ids_NoDup MOCK_PRODUCTS hidratante4).
  vm_compute. repeat constructor; simpl; intuition discriminate.
Defined.

(** ** Re-deriving the list *)

(** X17. Each derivation returns an array of its own: deriving the list a
    second time, with other filters, allocates another array and leaves the
    array returned the first time, the seed array and every product object
    as they were. *)
Theorem rederive_fresh (h : Heap.heap) (products : Heap.ref) (f g : Filters)
  (Hvalid : (products < List.length (Heap.arrays h))%nat) :
  let r1 := Heap.filtered products f h in
  let r2 := Heap.filtered products g (snd r1) in
  fst r2 <> fst r1 /\ fst r2 <> products /\
  Heap.contents (fst r1) (snd r2) = filtered (Heap.contents products h) f /\
  Heap.contents (fst r2) (snd r2) = filtered (Heap.contents products h) g /\
  Heap.elements products (snd r2) = Heap.elements products h /\
  (forall o : Heap.ref, Heap.object (snd r2) o = Heap.object h o).
Proof.
  intros r1 r2. subst r2 r1. rewrite !filtered_run.
  cbn [fst snd Heap.arrays Heap.object].
  unfold Heap.contents, Heap.elements. cbn [Heap.arrays Heap.object].
  rewrite !length_app. cbn [List.length].
  assert (E0 : forall x y, nth products ((Heap.arrays h ++ [x]) ++ [y]) [] =
                           nth products (Heap.arrays h) []).
  { intros x y. rewrite app_nth1 by (rewrite length_app; simpl; lia).
    now apply app_nth1. }
  assert (E1 : forall x, nth products (Heap.arrays h ++ [x]) [] =
                         nth products (Heap.arrays h) []).
  { intros x. now apply app_nth1. }
  repeat split.
  - lia.
  - lia.
  - rewrite app_nth1 by (rewrite length_app; simpl; lia).
    rewrite nth_middle. unfold filtered.
    rewrite (sort_map (Heap.object h) byRatingDesc).
    now rewrite (filter_map_pre (Heap.object h) (keep f)).
  - replace (List.length (Heap.arrays h) + 1)%nat
      with (List.length (Heap.arrays h ++ [JS.sort
              (fun x y => byRatingDesc (Heap.object h x) (Heap.object h y))
              (List.filter (fun r => keep f (Heap.object h r))
                 (nth products (Heap.arrays h) []))]))
      by (rewrite length_app; reflexivity).
    rewrite nth_middle, E1. unfold filtered.
    rewrite (sort_map (Heap.object h) byRatingDesc).
    now rewrite (filter_map_pre (Heap.object h) (keep g)).
  - apply E0.
Qed.

Lemma rederive_fresh_seed :
  let r1 := Heap.filtered 0%nat hidratante4 seedHeap in
  let r2 := Heap.filtered 0%nat (mkFilters "" todas 0) (snd r1) in
  fst r2 <> fst r1 /\ fst r2 <> 0%nat /\
  Heap.contents (fst r1) (snd r2) = filtered (Heap.contents 0%nat seedHeap) hidratante4 /\
  Heap.contents (fst r2) (snd r2) =
    filtered (Heap.contents 0%nat seedHeap) (mkFilters "" todas 0) /\
  Heap.elements 0%nat (snd r2) = Heap.elements 0%nat seedHeap /\
  (forall o : Heap.ref, Heap.object (snd r2) o = Heap.object seedHeap o).
Proof.
  apply (rederive_fresh seedHeap 0%nat hidratante4 (mkFilters "" todas 0)).
  simpl. lia.
Defined.

(** ** More on the debounce *)

Section DebounceMore.
Import Debounce.

Lemma tick_cases (s : state) :
  Ready s ->
  Ready (tick s) /\ query (tick s) = query s /\
  (debouncedQuery (tick s) = debouncedQuery s \/
   debouncedQuery (tick s) = query s).
Proof.
  intros [Hi | (r & Hr & HP)].
  - destruct (tick_idle s Hi) as (Hi' & HQ & HD).
    split; [now left | split; [exact HQ | now left]].
  - destruct r as [|[|r]]; [lia | |].
    + destruct (tick_fire s HP) as (Hi' & HQ & HD).
      split; [now left | split; [exact HQ | now right]].
    + destruct (tick_wait s r HP) as (HP' & HQ & HD).
      split; [|split; [exact HQ | now left]].
      right. exists (S r). split; [lia | exact HP'].
Qed.

Lemma Pending_not_Idle (s : state) (r : nat) : Pending s r -> ~ Idle s.
Proof.
  intros (h & Ht & _) Hi. unfold Idle in Hi. congruence.
Qed.

Lemma exec_snoc (evs : list event) (e : event) :
  exec mount (evs ++ [e]) = step (exec mount evs) e.
Proof.
  unfold exec. now rewrite fold_left_app.
Qed.

Lemma exec_idle_applied (evs : list event) :
  Idle (exec mount evs) ->
  debouncedQuery (exec mount evs) = query (exec mount evs).
Proof.
  induction evs as [|e evs IH] using rev_ind.
  - intros Hi. exfalso. revert Hi. apply (Pending_not_Idle mount delay).
    exists 0%nat. split; reflexivity.
  - rewrite exec_snoc. pose proof (exec_ready evs) as R.
    set (s := exec mount evs) in *. destruct e as [v|]; cbn [step].
    + destruct (String.eqb_spec v (query s)) as [->|Hv].
      * rewrite setQuery_same. exact IH.
      * destruct (setQuery_changed s v Hv) as (_ & HP & _).
        { destruct R as [Hi | (r & _ & HP)]; [now left | right; now exists r]. }
        intros Hi. exfalso. exact (Pending_not_Idle _ _ HP Hi).
    + destruct R as [Hi | (r & Hr & HP)].
      * destruct (tick_idle s Hi) as (_ & HQ & HD).
        intros _. rewrite HQ, HD. now apply IH.
      * destruct r as [|[|r]]; [lia | |].
        -- destruct (tick_fire s HP) as (_ & HQ & HD). intros _. congruence.
        -- destruct (tick_wait s r HP) as (HP' & _).
           intros Hi. exfalso. exact (Pending_not_Idle _ _ HP' Hi).
Qed.

(** X18. At every moment of every run at most one timer is set; it
    carries the present query, is the one the cleanup of the effect will
    clear, and has between 1 and 250 ms to go.  When none is set, the
    applied query is the present query. *)
Theorem debounce_one_timer (evs : list event) :
  (List.length (timers (exec mount evs)) <= 1)%nat /\
  Forall (fun tm =>
            captured tm = query (exec mount evs) /\
            cleanup (exec mount evs) = Some (handle tm) /\
            (1 <= remaining tm <= 250)%nat)
         (timers (exec mount evs)) /\
  (timers (exec mount evs) = [] ->
   debouncedQuery (exec mount evs) = query (exec mount evs)).
Proof.
  split; [|split; [|apply exec_idle_applied]].
  - destruct (exec_inv evs) as [_ [Hi | (r & Hr & (h & Ht & Hc) & Hd)]].
    + unfold Idle in Hi. rewrite Hi. simpl. lia.
    + rewrite Ht. simpl. lia.
  - destruct (exec_inv evs) as [_ [Hi | (r & Hr & (h & Ht & Hc) & Hd)]].
    + unfold Idle in Hi. rewrite Hi. constructor.
    + rewrite Ht. constructor; [|constructor].
      cbn [captured handle remaining]. unfold delay in Hd.
      split; [reflexivity | split; [exact Hc | lia]].
Qed.

(** X19. The applied query catches up: after any run, once 250 ms or more
    pass without an edit, the applied query is the query, which the passing
    of time has not changed. *)
Theorem debounce_settles (evs : list event) (d : nat) (H : (250 <= d)%nat) :
  debouncedQuery (exec mount (evs ++ ticks d)) = query (exec mount evs) /\
  query (exec mount (evs ++ ticks d)) = query (exec mount evs).
Proof.
  rewrite exec_app.
  destruct (ticks_end d (exec mount evs) (exec_ready evs)) as [HQ _].
  split; [|exact HQ].
  destruct (exec_inv evs) as [_ [Hi | (r & Hr & HP & Hd)]].
  - destruct (ticks_idle d (exec mount evs) Hi) as [HD _].
    rewrite HD. now apply exec_idle_applied.
  - apply (ticks_long d (exec mount evs) r HP Hr). unfold delay in Hd. lia.
Qed.

Lemma debounce_settles_example :
  debouncedQuery (exec mount ([Edit "a"; Tick; Edit "ab"] ++ ticks 250)) =
  query (exec mount [Edit "a"; Tick; Edit "ab"]) /\
  query (exec mount ([Edit "a"; Tick; Edit "ab"] ++ ticks 250)) =
  query (exec mount [Edit "a"; Tick; Edit "ab"]).
Proof.
  apply (debounce_settles [Edit "a"; Tick; Edit "ab"] 250). lia.
Defined.

Lemma typed_In (evs : list event) (x : string) :
  In x (typed evs) <-> x = "" \/ In (Edit x) evs.
Proof.
  induction evs as [|[v|] evs IH]; cbn [typed In].
  - intuition.
  - rewrite IH. split.
    + intros [->|[H|H]]; auto.
    + intros [H|[H|H]]; auto. inversion H. auto.
  - rewrite IH. split.
    + intros [H|H]; auto.
    + intros [H|[H|H]]; auto. discriminate.
Qed.

Lemma typed_snoc (evs : list event) (e : event) (x : string) :
  In x (typed evs) -> In x (typed (evs ++ [e])).
Proof.
  rewrite !typed_In, in_app_iff. tauto.
Qed.

(** X20. Nothing is applied that was not typed: at every moment of every
    run the applied query, like the query, is the initial empty text or the
    value of an edit made so far. *)
Theorem debounce_only_typed (evs : list event) :
  In (debouncedQuery (exec mount evs)) (typed evs) /\
  In (query (exec mount evs)) (typed evs).
Proof.
  induction evs as [|e evs [IHd IHq]] using rev_ind.
  - split; now left.
  - rewrite exec_snoc. pose proof (exec_ready evs) as R.
    set (s := exec mount evs) in *. destruct e as [v|]; cbn [step].
    + destruct (String.eqb_spec v (query s)) as [->|Hv].
      * rewrite setQuery_same. split; now apply typed_snoc.
      * destruct (setQuery_changed s v Hv) as (_ & _ & HQ & HD).
        { destruct R as [Hi | (r & _ & HP)]; [now left | right; now exists r]. }
        rewrite HQ, HD. split; [now apply typed_snoc|].
        apply typed_In. right. apply in_app_iff. right. now left.
    + destruct (tick_cases s R) as (_ & HQ & HD).
      rewrite HQ. split; [|now apply typed_snoc].
      destruct HD as [-> | ->]; now apply typed_snoc.
Qed.

End DebounceMore.

(** ** The results section *)

Lemma keep_false (f : Filters) (p : Product.t) :
  keep f p = false <->
  matchesText (normalized (debouncedQuery f)) p = false \/
  matchesCat (JS.toLowerCase (category f)) p = false \/
  matchesRating (minRating f) p = false.
Proof.
  unfold keep, normalized. rewrite !andb_false_iff. tauto.
Qed.

Lemma filter_nil_iff {A : Type} (g : A -> bool) (l : list A) :
  List.filter g l = [] <-> Forall (fun x => g x = false) l.
Proof.
  induction l as [|x l IH]; simpl.
  - split; [constructor | reflexivity].
  - destruct (g x) eqn:E.
    + split; [discriminate|]. intros H. inversion H. congruence.
    + rewrite IH. split; [now constructor | now inversion 1].
Qed.

Lemma filtered_length (products : list Product.t) (f : Filters) :
  List.length (filtered products f) = List.length (List.filter (keep f) products).
Proof.
  apply Permutation_length, sort_perm.
Qed.

(** X21. The empty state is shown exactly when every product of the
    catalog fails one of the three predicates.  Its message is decided by
    the applied query as it was typed: the invitation to use the search when
    that is the empty string, and otherwise the notice that echoes it, also
    when it is made of white space only and filters as the empty query
    does.  When the empty state is not shown, the grid holds the derived
    list, which is not empty.  The number in the heading counts the
    products of the catalog that pass the filter and never exceeds the size
    of the catalog. *)
Theorem results_spec (products : list Product.t) (f : Filters) :
  ((exists message : EmptyMessage, results products f = Empty message) <->
   Forall (fun p =>
             matchesText (normalized (debouncedQuery f)) p = false \/
             matchesCat (JS.toLowerCase (category f)) p = false \/
             matchesRating (minRating f) p = false)
          products) /\
  (forall message : EmptyMessage,
     results products f = Empty message ->
     (debouncedQuery f = "" /\ message = UseTheSearch) \/
     (debouncedQuery f <> "" /\ message = NoResultsFor (debouncedQuery f))) /\
  (forall cards : list Product.t,
     results products f = Grid cards ->
     cards = filtered products f /\ cards <> []) /\
  resultCount products f = List.length (List.filter (keep f) products) /\
  (resultCount products f <= List.length products)%nat.
Proof.
  assert (Z : List.length (filtered products f) = 0%nat <->
              Forall (fun p => keep f p = false) products).
  { rewrite filtered_length, length_zero_iff_nil. apply filter_nil_iff. }
  split; [|split; [|split; [|split]]].
  - unfold results.
    destruct (Nat.eqb_spec (List.length (filtered products f)) 0) as [E|E].
    + split; [intros _ | intros _; eexists; reflexivity].
      apply Z in E. eapply Forall_impl; [|exact E].
      intros p. apply keep_false.
    + split; [intros [m Hm]; discriminate Hm|]. intros H. exfalso. apply E, Z.
      eapply Forall_impl; [|exact H]. intros p. apply keep_false.
  - intros message. unfold results.
    destruct (Nat.eqb_spec (List.length (filtered products f)) 0) as [E|E];
      [|discriminate].
    intros H. inversion H as [M]. unfold EmptyState.
    destruct (debouncedQuery f) as [|c q]; cbn [JS.falsy].
    + left. split; reflexivity.
    + right. split; [discriminate | reflexivity].
  - intros cards. unfold results.
    destruct (Nat.eqb_spec (List.length (filtered products f)) 0) as [E|E].
    + discriminate.
    + intros H. inversion H. split; [reflexivity|].
      intros N. apply E. now rewrite N.
  - apply filtered_length.
  - unfold resultCount. rewrite filtered_length. apply filter_length_le.
Qed.

(** ** The controversy badge *)

Lemma Substring_refl (s : string) : Substring s s.
Proof.
  exists "", "". simpl. induction s as [|c s IH]; [reflexivity|].
  simpl. now rewrite <- IH.
Qed.

Lemma Substring_app_l (q a b : string) : Substring q b -> Substring q (a ++ b).
Proof.
  intros (pre & post & ->). exists (a ++ pre)%string, post.
  now rewrite append_assoc.
Qed.

Lemma Substring_app_r (q a b : string) : Substring q a -> Substring q (a ++ b).
Proof.
  intros (pre & post & ->). exists pre, (post ++ b)%string.
  now rewrite !append_assoc.
Qed.

Lemma join_Substring (sep x : string) (l : list string) :
  In x l -> Substring x (JS.join sep l).
Proof.
  induction l as [|y l IH]; [contradiction|].
  intros Hin. cbn [JS.join]. destruct l as [|z l].
  - destruct Hin as [->|[]]. apply Substring_refl.
  - destruct Hin as [->|Hin].
    + apply Substring_app_r, Substring_refl.
    + apply Substring_app_l, Substring_app_l, IH, Hin.
Qed.

(** X22. A row of the ingredient table carries a controversy badge exactly
    when the ingredient has a list of reasons that is not empty (a missing
    list and an empty one both give no badge), and every reason can be read
    in the label of the badge, after the heading. *)
Theorem controversyBadge_spec (ing : Ingredient.t) :
  (controversyBadge ing = None <->
   Ingredient.controversial ing = None \/
   Ingredient.controversial ing = Some []) /\
  (forall label : string,
     controversyBadge ing = Some label ->
     exists reasons : list string,
       Ingredient.controversial ing = Some reasons /\ reasons <> [] /\
       label = ("Controverso: " ++ JS.join ", " reasons)%string /\
       forall reason : string, In reason reasons -> Substring reason label).
Proof.
  unfold controversyBadge.
  destruct (Ingredient.controversial ing) as [[|r reasons]|]; cbn.
  - split; [split; auto|]. discriminate.
  - split.
    + split; [discriminate|]. intros [H|H]; discriminate.
    + intros label H. inversion H as [E]. exists (r :: reasons).
      split; [reflexivity|]. split; [discriminate|]. split; [reflexivity|].
      intros reason Hin.
      apply (Substring_app_l reason "Controverso: " (JS.join ", " (r :: reasons))).
      now apply join_Substring.
  - split; [split; auto|]. discriminate.
Qed.

Lemma controversyBadge_seed :
  controversyBadge (Ingredient.mk "Phenoxyethanol" "preservative" None None
                      (Some ["conservante sintético"]))
  = Some "Controverso: conservante sintético" /\
  Substring "conservante sintético" "Controverso: conservante sintético".
Proof.
  destruct (controversyBadge_spec
              (Ingredient.mk "Phenoxyethanol" "preservative" None None
                 (Some ["conservante sintético"]))) as [_ H].
  destruct (H "Controverso: conservante sintético" eq_refl)
    as (reasons & E & _ & _ & Hsub).
  split; [reflexivity|]. apply Hsub.
  inversion E. now left.
Defined.

(** ** Letter case and trimming on ASCII texts *)

Lemma lowerChar_code (c : ascii) :
  nat_of_ascii (JS.lowerChar c) =
  if isCapital c then (nat_of_ascii c + 32)%nat else nat_of_ascii c.
Proof.
  unfold JS.lowerChar, isCapital. cbv zeta.
  pose proof (nat_ascii_bounded c) as B.
  destruct ((65 <=? nat_of_ascii c) && (nat_of_ascii c <=? 90))%nat eqn:E;
    [|reflexivity].
  apply andb_true_iff in E as [_ E]. apply Nat.leb_le in E.
  apply nat_ascii_embedding. lia.
Qed.

Lemma nat_of_ascii_inj (c d : ascii) : nat_of_ascii c = nat_of_ascii d -> c = d.
Proof.
  intros H. rewrite <- (ascii_nat_embedding c), <- (ascii_nat_embedding d).
  now rewrite H.
Qed.

Lemma lowerChar_eq (c d : ascii) :
  JS.lowerChar c = JS.lowerChar d <-> sameLetter c d = true.
Proof.
  assert (K : nat_of_ascii (JS.lowerChar c) = nat_of_ascii (JS.lowerChar d) <->
              sameLetter c d = true).
  { rewrite !lowerChar_code. unfold sameLetter, isCapital. cbv zeta.
    set (m := nat_of_ascii c). set (n := nat_of_ascii d).
    destruct (Nat.leb_spec 65 m), (Nat.leb_spec m 90),
             (Nat.leb_spec 65 n), (Nat.leb_spec n 90),
             (Nat.eqb_spec m n), (Nat.eqb_spec n (m + 32)),
             (Nat.eqb_spec m (n + 32));
      cbn; split; intros; try reflexivity; try discriminate; lia. }
  rewrite <- K. split; [intros ->; reflexivity | apply nat_of_ascii_inj].
Qed.

Lemma toLowerCase_eq (a b : string) :
  JS.toLowerCase a = JS.toLowerCase b <-> equalIgnoringCase a b = true.
Proof.
  revert b.
  induction a as [|c a IH]; intros [|d b];
    cbn [JS.toLowerCase equalIgnoringCase].
  - split; reflexivity.
  - split; discriminate.
  - split; discriminate.
  - rewrite andb_true_iff, <- IH, <- lowerChar_eq. split.
    + intros H. injection H as H1 H2. split; assumption.
    + intros [-> ->]. reflexivity.
Qed.

Lemma toLowerCase_split (x y s : string) :
  JS.toLowerCase s = (x ++ y)%string ->
  exists s1 s2 : string,
    s = (s1 ++ s2)%string /\ JS.toLowerCase s1 = x /\ JS.toLowerCase s2 = y.
Proof.
  revert s. induction x as [|c x IH]; intros s H.
  - exists "", s. repeat split. exact H.
  - destruct s as [|d s]; [discriminate|].
    simpl in H. inversion H as [[Hc Hs]].
    destruct (IH s Hs) as (s1 & s2 & -> & E1 & E2).
    exists (String d s1), s2. repeat split.
    + simpl. now rewrite E1.
    + exact E2.
Qed.

Lemma Substring_toLowerCase_iff (q s : string) :
  Substring (JS.toLowerCase q) (JS.toLowerCase s) <-> OccursIgnoringCase q s.
Proof.
  split.
  - intros (pre & post & H).
    destruct (toLowerCase_split _ _ _ H) as (s1 & s' & -> & _ & H').
    destruct (toLowerCase_split _ _ _ H') as (mid & s3 & -> & Hm & _).
    exists s1, mid, s3. split; [reflexivity|]. now apply toLowerCase_eq.
  - intros (pre & mid & post & -> & H). apply toLowerCase_eq in H.
    exists (JS.toLowerCase pre), (JS.toLowerCase post).
    now rewrite !toLowerCase_app, H.
Qed.








(** X23. For a role outside the nine tags that does not name a member
    inherited from [Object.prototype] (the seed's [solvent] is one),
    [roleLabel] gives the role string itself, and an ingredient with such a
    role is not dropped: when no ingredient of the product is tagged
    [__proto__], the ingredient table is rendered with one row per
    ingredient, among them the row of this ingredient with its name and its
    role; and, the texts being ASCII, every query that without the white
    space around it occurs in the name of the ingredient, up to the case of
    the letters, satisfies the text predicate on the product. *)
Theorem roleLabel_unlisted (role : string)
  (Hout : ~ In role IngredientRole)
  (Hproto : ~ In role JS.Object_prototype) :
  roleLabel role = JS.VString role /\
  forall (p : Product.t) (ing : Ingredient.t),
    In ing (Product.inci p) -> Ingredient.role ing = role ->
    (Forall (fun i => Ingredient.role i <> "__proto__") (Product.inci p) ->
     exists rows : list (string * string),
       ingredientRows p = Some rows /\
       List.length rows = List.length (Product.inci p) /\
       In (Ingredient.name ing, role) rows) /\
    forall query : string,
      JS.isAscii query = true -> JS.isAscii (Ingredient.name ing) = true ->
      OccursIgnoringCase (JS.trim query) (Ingredient.name ing) ->
      matchesText (normalized query) p = true.
Proof.
  pose proof (roleLabel_fallback role Hout Hproto) as L.
  split; [exact L|].
  intros p ing Hin Hrole. split.
  - intros Hall. destruct (renderRows_rendered _ Hall) as (rows & Hrows & Hlen & Hrow).
    exists rows. split; [exact Hrows|]. split; [exact Hlen|].
    apply Hrow; [exact Hin|]. rewrite Hrole, L. reflexivity.
  - intros query _ _ Hq. apply matchesText_iff. do 4 right.
    apply Exists_exists. exists ing. split; [exact Hin|].
    unfold normalized. apply Substring_toLowerCase_iff. exact Hq.
Qed.

Lemma roleLabel_solvent :
  roleLabel "solvent" = JS.VString "solvent" /\
  (exists rows : list (string * string),
     ingredientRows mock_p1 = Some rows /\
     List.length rows = 6%nat /\
     In ("Aqua", "solvent") rows) /\
  matchesText (normalized " AQUA ") mock_p1 = true.
Proof.
  assert (Hout : ~ In "solvent" IngredientRole).
  { simpl. intros H. repeat (destruct H as [H|H]; [discriminate H|]). exact H. }
  assert (Hproto : ~ In "solvent" JS.Object_prototype).
  { simpl. intros H. repeat (destruct H as [H|H]; [discriminate H|]). exact H. }
  destruct (roleLabel_unlisted "solvent" Hout Hproto) as [L R].
  split; [exact L|].
  destruct (R mock_p1 (Ingredient.mk "Aqua" "solvent" None None None))
    as (Hrows & Hsearch).
  - simpl. now left.
  - reflexivity.
  - split.
    + apply Hrows. repeat constructor; discriminate.
    + apply Hsearch; [reflexivity | reflexivity |].
      exists "", "Aqua", "". split; reflexivity.
Defined.
